(** * Listing-to-product matching (main.py): a shallow embedding

    The definitions follow the source file top to bottom:
    - [Py]: the Python values and library calls the program relies on
      ([str.upper], [re.split], [re.compile], [re.match], dictionaries in
      insertion order, [sorted], [l[-1]]);
    - [Product], [Listing], [Inventory]: the three classes;
    - [Matcher]: the three static matching methods;
    - [reconcile]: the loop of the [__main__] block.  Reading the two files
      and writing the result are left out: the loop takes the two parsed
      collections and returns the mapping;
    - further down, the two [__repr__] methods and the two loaders,
      [load_products] and [load_listings], with [json.loads] as a parameter;
    - last, the matchers and the loop once more with [re.match] and
      [str.upper] as parameters ([manufacturer_match_with],
      [reconcile_with], ...), of which the definitions above are the
      instance at the modelled library.

    Then come the notions the properties are stated with, and the
    properties: the pattern matcher is shown to decide "some prefix of the
    text is in the language of the pattern"; the parser is followed on the
    patterns the program builds from plain text; the index, the resolver,
    the best-candidate search and the loop are characterised in turn.

    Text is 7-bit ASCII: a character is an [ascii], the letters with a case
    are [a]-[z] and [A]-[Z], and characters above 127 stand outside what is
    modelled of Python's Unicode strings. *)

From Stdlib Require Import List String Ascii Bool NArith ZArith Arith Lia.
From Stdlib Require Import Permutation Sorted.
Import ListNotations.
Local Open Scope string_scope.
Local Open Scope list_scope.

Set Implicit Arguments.

(** ** Outcomes of a call

    A call either returns a value or stops with a failure.  [re_error] is the
    exception [re.error] raised by Python when a pattern does not compile;
    nothing in the program catches it, so it ends the run.  [unmodelled] is
    not a Python outcome: it marks a pattern that uses regular-expression
    syntax outside the fragment embedded below, on which this development
    makes no statement. *)

Inductive failure : Type :=
| re_error
| unmodelled.

Inductive result (A : Type) : Type :=
| Ok (a : A)
| Fail (f : failure).

Arguments Ok {A} a.
Arguments Fail {A} f.

Definition bind {A B : Type} (m : result A) (k : A -> result B) : result B :=
  match m with
  | Ok a => k a
  | Fail f => Fail f
  end.

Notation "x <- m ;; k" := (bind m (fun x => k))
  (at level 61, m at next level, right associativity).

(** A loop body run over a list, threading an accumulator and stopping at the
    first failure: the shape of every [for] loop of the program. *)
Fixpoint for_each {A S : Type} (body : S -> A -> result S) (xs : list A) (st : S)
  : result S :=
  match xs with
  | [] => Ok st
  | x :: xs' => st' <- body st x ;; for_each body xs' st'
  end.

Module Py.

(** *** Characters and [str.upper] *)

Definition newline : ascii := ascii_of_N 10.

Definition is_lower (c : ascii) : bool :=
  let n := N_of_ascii c in ((97 <=? n) && (n <=? 122))%N.

Definition upper_char (c : ascii) : ascii :=
  if is_lower c then ascii_of_N (N_of_ascii c - 32) else c.

(** [s.upper()] *)
Fixpoint upper (s : string) : string :=
  match s with
  | EmptyString => EmptyString
  | String c s' => String (upper_char c) (upper s')
  end.

(** *** [re.split('[_-]', s)]

    Every ['_'] and every ['-'] ends a piece, so [n] separators give [n + 1]
    pieces, empty ones included; the empty string gives one empty piece. *)

Definition is_sep (c : ascii) : bool :=
  Ascii.eqb c "_" || Ascii.eqb c "-".

Fixpoint split_sep (s : string) : list string :=
  match s with
  | EmptyString => [EmptyString]
  | String c s' =>
      if is_sep c then EmptyString :: split_sep s'
      else match split_sep s' with
           | [] => [String c EmptyString]
           | w :: ws => String c w :: ws
           end
  end.

(** *** Regular expressions

    The abstract syntax of the patterns the program can build inside the
    modelled fragment.  [Chr] is a literal compared without case (every
    pattern of the program is used with [re.IGNORECASE]); [Any] is ['.'],
    which without [re.DOTALL] matches every character but the newline.
    [Empty] and [Alt] do not come from the parser: they appear in
    derivatives. *)

Inductive regex : Type :=
| Empty
| Eps
| Chr (c : ascii)
| Any
| Cat (r1 r2 : regex)
| Alt (r1 r2 : regex)
| Star (r : regex).

(** The strings a pattern matches in full. *)
Inductive Lang : regex -> string -> Prop :=
| LEps : Lang Eps ""
| LChr a c : upper_char a = upper_char c -> Lang (Chr a) (String c "")
| LAny c : c <> newline -> Lang Any (String c "")
| LCat r1 r2 s1 s2 : Lang r1 s1 -> Lang r2 s2 -> Lang (Cat r1 r2) (s1 ++ s2)
| LAltL r1 r2 s : Lang r1 s -> Lang (Alt r1 r2) s
| LAltR r1 r2 s : Lang r2 s -> Lang (Alt r1 r2) s
| LStar0 r : Lang (Star r) ""
| LStarS r s1 s2 : Lang r s1 -> Lang (Star r) s2 -> Lang (Star r) (s1 ++ s2).

Fixpoint nullable (r : regex) : bool :=
  match r with
  | Empty => false
  | Eps => true
  | Chr _ => false
  | Any => false
  | Cat r1 r2 => nullable r1 && nullable r2
  | Alt r1 r2 => nullable r1 || nullable r2
  | Star _ => true
  end.

(** Constructors that drop dead branches, so that derivatives stay small. *)
Definition cat (r1 r2 : regex) : regex :=
  match r1, r2 with
  | Empty, _ => Empty
  | _, Empty => Empty
  | Eps, _ => r2
  | _, _ => Cat r1 r2
  end.

Definition alt (r1 r2 : regex) : regex :=
  match r1, r2 with
  | Empty, _ => r2
  | _, Empty => r1
  | _, _ => Alt r1 r2
  end.

(** [deriv c r] matches [s] exactly when [r] matches [c] followed by [s]. *)
Fixpoint deriv (c : ascii) (r : regex) : regex :=
  match r with
  | Empty => Empty
  | Eps => Empty
  | Chr a => if Ascii.eqb (upper_char a) (upper_char c) then Eps else Empty
  | Any => if Ascii.eqb c newline then Empty else Eps
  | Cat r1 r2 =>
      alt (cat (deriv c r1) r2) (if nullable r1 then deriv c r2 else Empty)
  | Alt r1 r2 => alt (deriv c r1) (deriv c r2)
  | Star r1 => cat (deriv c r1) (Star r1)
  end.

(** [re.match(r, s)] as a truth value: the match object is truthy, [None] is
    falsy, so the call is "true" exactly when [r] matches some prefix of
    [s], the empty one included. *)
Fixpoint prefix_match (r : regex) (s : string) : bool :=
  nullable r ||
  match s with
  | EmptyString => false
  | String c s' => prefix_match (deriv c r) s'
  end.

(** *** [re.compile]: the modelled fragment of the pattern syntax

    Python's pattern parser treats as special the characters
    [. \ [ { ( ) * + ? ^ $ |]; every other character is a literal.  The
    fragment covers literals, ['.'], groups, ['*'] and the counted repeat
    [{d}] with one digit [d]: what the program's own patterns are made of
    when names and keywords are plain text.  A pattern using any other
    special character is [unmodelled].

    The parser reads the pattern left to right as Python's does.  It keeps
    the items of the group being read, last item first, each with a flag
    saying whether it is already a repeat, and a stack of the enclosing
    groups.  Python's errors in the fragment:
    - a repeat with nothing before it in its group: "nothing to repeat";
    - a repeat applied to a repeat: "multiple repeat";
    - [')'] with no open group: "unbalanced parenthesis";
    - end of pattern inside a group: "missing ), unterminated subpattern". *)

Definition item : Type := (regex * bool)%type.

Fixpoint seq_of (items : list item) (acc : regex) : regex :=
  match items with
  | [] => acc
  | (r, _) :: items' => seq_of items' (Cat r acc)
  end.

Fixpoint power (n : nat) (r : regex) : regex :=
  match n with
  | O => Eps
  | S n' => Cat r (power n' r)
  end.

Definition is_digit (c : ascii) : bool :=
  let n := N_of_ascii c in ((48 <=? n) && (n <=? 57))%N.

Definition digit_value (c : ascii) : nat := N.to_nat (N_of_ascii c - 48).

(** The special characters the fragment leaves out. *)
Definition is_unmodelled_special (c : ascii) : bool :=
  Ascii.eqb c "\" || Ascii.eqb c "[" || Ascii.eqb c "+" || Ascii.eqb c "?"
  || Ascii.eqb c "^" || Ascii.eqb c "$" || Ascii.eqb c "|".

(** Applies a repeat to the last item read. *)
Definition repeat_last (f : regex -> regex) (cur : list item)
  : result (list item) :=
  match cur with
  | [] => Fail re_error
  | (_, true) :: _ => Fail re_error
  | (r, false) :: cur' => Ok ((f r, true) :: cur')
  end.

Fixpoint parse (cur : list item) (stack : list (list item)) (s : string)
  : result regex :=
  match s with
  | EmptyString =>
      match stack with
      | [] => Ok (seq_of cur Eps)
      | _ :: _ => Fail re_error
      end
  | String c s' =>
      if Ascii.eqb c "(" then parse [] (cur :: stack) s'
      else if Ascii.eqb c ")" then
        match stack with
        | [] => Fail re_error
        | parent :: stack' => parse ((seq_of cur Eps, false) :: parent) stack' s'
        end
      else if Ascii.eqb c "*" then
        match repeat_last Star cur with
        | Ok cur' => parse cur' stack s'
        | Fail f => Fail f
        end
      else if Ascii.eqb c "{" then
        match s' with
        | String d (String e s'') =>
            if is_digit d && Ascii.eqb e "}" then
              match repeat_last (power (digit_value d)) cur with
              | Ok cur' => parse cur' stack s''
              | Fail f => Fail f
              end
            else Fail unmodelled
        | _ => Fail unmodelled
        end
      else if Ascii.eqb c "." then parse ((Any, false) :: cur) stack s'
      else if is_unmodelled_special c then Fail unmodelled
      else parse ((Chr c, false) :: cur) stack s'
  end.

(** [re.compile(pattern, flags=re.IGNORECASE)] *)
Definition compile (pattern : string) : result regex := parse [] [] pattern.

(** [re.match(pattern, s, flags=re.IGNORECASE)], as a truth value. *)
Definition re_match (pattern s : string) : result bool :=
  r <- compile pattern ;; Ok (prefix_match r s).

(** *** Dictionaries with string keys

    A Python [dict] keeps its keys in the order of their first insertion;
    assigning to a key already present replaces the value in place. *)

Definition dict (V : Type) : Type := list (string * V).

Fixpoint dict_get {V : Type} (d : dict V) (k : string) : option V :=
  match d with
  | [] => None
  | (k', v) :: d' => if String.eqb k' k then Some v else dict_get d' k
  end.

Fixpoint dict_set {V : Type} (d : dict V) (k : string) (v : V) : dict V :=
  match d with
  | [] => [(k, v)]
  | (k', v') :: d' =>
      if String.eqb k' k then (k', v) :: d' else (k', v') :: dict_set d' k v
  end.

Definition dict_keys {V : Type} (d : dict V) : list string := map fst d.

(** *** [sorted(xs, key=...)] on string keys

    Python's [sorted] is stable and ascending; strings compare
    lexicographically by character code.  An insertion sort that puts an
    element before the first one whose key is not smaller has the same
    result. *)

Fixpoint insert_sorted {A : Type} (key : A -> string) (x : A) (l : list A)
  : list A :=
  match l with
  | [] => [x]
  | y :: l' =>
      if String.leb (key x) (key y) then x :: y :: l'
      else y :: insert_sorted key x l'
  end.

Fixpoint sorted {A : Type} (key : A -> string) (l : list A) : list A :=
  match l with
  | [] => []
  | x :: l' => insert_sorted key x (sorted key l')
  end.

(** [l[-1]] on a list that may be empty. *)
Fixpoint last_item {A : Type} (l : list A) : option A :=
  match l with
  | [] => None
  | [x] => Some x
  | _ :: l' => last_item l'
  end.

End Py.

Import Py.

(** ** The classes *)

Module Product.
Record t : Type := {
  product_name : string;
  manufacturer : string;
  model : string;
  announced_date : string;
  family : option string
}.
End Product.

Module Listing.
Record t : Type := {
  title : string;
  manufacturer : string;
  currency : string;
  price : string
}.
End Listing.

Module Inventory.

Record t : Type := {
  product_list : list Product.t;
  manufacturer_index : dict (list Product.t)
}.

Definition empty : t :=
  {| product_list := []; manufacturer_index := [] |}.

Definition items_by_manufacturer (self : t) (manufacturer : string)
  : list Product.t :=
  match dict_get (manufacturer_index self) manufacturer with
  | Some bucket => bucket
  | None => []
  end.

(** The [try] branch appends to the bucket found under the key; the
    [except KeyError] branch creates the bucket. *)
Definition add_product (self : t) (product : Product.t) : t :=
  let key := Product.manufacturer product in
  {| product_list := product_list self ++ [product];
     manufacturer_index :=
       match dict_get (manufacturer_index self) key with
       | Some bucket =>
           dict_set (manufacturer_index self) key (bucket ++ [product])
       | None => dict_set (manufacturer_index self) key [product]
       end |}.

(** [Inventory(product_list)] *)
Definition init (product_list : list Product.t) : t :=
  fold_left add_product product_list empty.

End Inventory.

Module Matcher.

Definition manufacturer_match (manufacturer_list : list string)
  (listing : Listing.t) : result (option string) :=
  matched_brands <-
    for_each
      (fun matched_brands brand =>
         matched <- re_match brand (Listing.title listing) ;;
         Ok (if matched : bool then matched_brands ++ [brand]
             else matched_brands))
      manufacturer_list [] ;;
  match matched_brands with
  | [brand] => Ok (Some brand)
  | _ => Ok None
  end.

(** The pattern built by the loop over the keywords. *)
Definition product_regex (pn_keywords : list string) : string :=
  fold_left
    (fun product_regex kw =>
       ((((product_regex ++ "(") ++ kw) ++ ")") ++ "{1}.*")%string)
    pn_keywords "".

(** The first component is the truth value of the match object. *)
Definition product_name_match (product : Product.t) (listing : Listing.t)
  : result (bool * Z) :=
  let pn_keywords := map upper (split_sep (Product.product_name product)) in
  compiled_regex <- compile (product_regex pn_keywords) ;;
  let regex_match := prefix_match compiled_regex (Listing.title listing) in
  Ok (regex_match, 80%Z).

Definition find_match (product_list : list Product.t) (listing : Listing.t)
  : result (option Product.t) :=
  potential_fits <-
    for_each
      (fun potential_fits product =>
         scored <- product_name_match product listing ;;
         let '(matched, confidence_bonus) := scored in
         Ok (if matched : bool then potential_fits ++ [product]
             else potential_fits))
      (sorted Product.product_name product_list) [] ;;
  match potential_fits with
  | [] => Ok None
  | _ :: _ => Ok (last_item potential_fits)
  end.

End Matcher.

(** ** The reconciliation loop of the [__main__] block

    [matches] maps a listing title to the matched product (the program
    stores the product's attribute dictionary).  [manufacturer_match] gives
    [None] for an unresolved listing; the index has only string keys, so
    looking [None] up gives the default, the empty list.  A product object
    is always truthy, so [if matched_item] only tests for [None]. *)

Definition reconcile_step (inventory : Inventory.t)
  (matches : dict Product.t) (listing : Listing.t) : result (dict Product.t) :=
  let inv_manufacturers := dict_keys (Inventory.manufacturer_index inventory) in
  listing_manufacturer <- Matcher.manufacturer_match inv_manufacturers listing ;;
  let potential_items :=
    match listing_manufacturer with
    | Some m => Inventory.items_by_manufacturer inventory m
    | None => []
    end in
  match potential_items with
  | [] => Ok matches
  | _ :: _ =>
      matched_item <- Matcher.find_match potential_items listing ;;
      match matched_item with
      | Some item => Ok (dict_set matches (Listing.title listing) item)
      | None => Ok matches
      end
  end.

Definition reconcile (product_list : list Product.t)
  (listing_list : list Listing.t) : result (dict Product.t) :=
  let matches := [] in
  let inventory := Inventory.init product_list in
  for_each (reconcile_step inventory) listing_list matches.

(** * Notions used to state the properties *)

(** ** Keywords and plain text *)

(** The keywords of a product: the pieces of its name, upper-cased. *)
Definition keywords (p : Product.t) : list string :=
  map upper (split_sep (Product.product_name p)).

(** The characters Python's pattern parser treats as special. *)
Definition is_special (c : ascii) : bool :=
  Ascii.eqb c "." || Ascii.eqb c "(" || Ascii.eqb c ")" || Ascii.eqb c "*"
  || Ascii.eqb c "{" || is_unmodelled_special c.

(** Text with no special character: as a pattern it stands for itself. *)
Fixpoint plain (s : string) : bool :=
  match s with
  | EmptyString => true
  | String c s' => negb (is_special c) && plain s'
  end.

Fixpoint no_newline (s : string) : bool :=
  match s with
  | EmptyString => true
  | String c s' => negb (Ascii.eqb c newline) && no_newline s'
  end.

Fixpoint only_separators (s : string) : bool :=
  match s with
  | EmptyString => true
  | String c s' => is_sep c && only_separators s'
  end.

(** The keywords occur in the title one after the other, anywhere, with any
    text before, between and after them. *)
Fixpoint occurs_in_order (kws : list string) (t : string) : Prop :=
  match kws with
  | [] => True
  | kw :: kws' =>
      exists gap rest,
        t = (gap ++ kw ++ rest)%string /\ occurs_in_order kws' rest
  end.

(** The same, as the pattern demands it: the first keyword at the very start
    of the title, letters compared without case, and no newline in the text
    that separates a keyword from the next. *)
Fixpoint starts_in_order (kws : list string) (t : string) : Prop :=
  match kws with
  | [] => True
  | kw :: kws' =>
      exists found gap rest,
        t = (found ++ gap ++ rest)%string /\
        upper found = upper kw /\
        no_newline gap = true /\
        starts_in_order kws' rest
  end.

(** The pattern a plain text compiles to, and the one the keyword loop
    builds: each keyword as a group repeated once, then ['.*']. *)
Fixpoint literal (s : string) : regex :=
  match s with
  | EmptyString => Eps
  | String c s' => Cat (Chr c) (literal s')
  end.

Fixpoint keyword_regex (kws : list string) : regex :=
  match kws with
  | [] => Eps
  | kw :: kws' =>
      Cat (Cat (literal kw) Eps) (Cat (Star Any) (keyword_regex kws'))
  end.

(** The parser's items after reading a plain text, and the sequence they
    stand for in front of [acc]. *)
Fixpoint read_plain (s : string) (cur : list item) : list item :=
  match s with
  | EmptyString => cur
  | String c s' => read_plain s' ((Chr c, false) :: cur)
  end.

Fixpoint literal_onto (s : string) (acc : regex) : regex :=
  match s with
  | EmptyString => acc
  | String c s' => Cat (Chr c) (literal_onto s' acc)
  end.

(** Sample records: only the name and manufacturer, or the title, filled. *)
Definition product_named (name manufacturer : string) : Product.t :=
  {| Product.product_name := name;
     Product.manufacturer := manufacturer;
     Product.model := "";
     Product.announced_date := "";
     Product.family := None |}.

Definition listing_titled (t : string) : Listing.t :=
  {| Listing.title := t;
     Listing.manufacturer := "";
     Listing.currency := "";
     Listing.price := "" |}.

(** A pattern that compiles, inside the modelled fragment. *)
Definition compiles (pattern : string) : Prop :=
  exists r, compile pattern = Ok r.

(** ** Manufacturer resolution *)

(** The name, used as a pattern, matches at the start of the title. *)
Definition matches_title (name t : string) : Prop :=
  re_match name t = Ok true.

Definition matches_titleb (name t : string) : bool :=
  match re_match name t with
  | Ok b => b
  | Fail _ => false
  end.

(** Exactly one of the names matches the title, and it is [m]. *)
Definition resolves_to (names : list string) (t m : string) : Prop :=
  In m names /\ matches_title m t /\
  forall n, In n names -> matches_title n t -> n = m.

(** ** Best candidate, in the words of the specification

    Sort by name; collect, in that order, every candidate whose score says
    matched; return the last collected one, if any. *)

Fixpoint collect_matched (candidates : list Product.t) (listing : Listing.t)
  : result (list Product.t) :=
  match candidates with
  | [] => Ok []
  | p :: candidates' =>
      scored <- Matcher.product_name_match p listing ;;
      rest <- collect_matched candidates' listing ;;
      Ok (if fst scored then p :: rest else rest)
  end.

Definition find_best (products : list Product.t) (listing : Listing.t)
  : result (option Product.t) :=
  collected <- collect_matched (sorted Product.product_name products) listing ;;
  Ok (last_item collected).

Definition key_le {A : Type} (key : A -> string) (x y : A) : Prop :=
  String.leb (key x) (key y) = true.

Definition name_le (p q : Product.t) : Prop :=
  String.leb (Product.product_name p) (Product.product_name q) = true.

(** ** The index *)

(** [p] is in the bucket stored under [key]. *)
Definition in_bucket (inv : Inventory.t) (key : string) (p : Product.t) : Prop :=
  exists bucket,
    In (key, bucket) (Inventory.manufacturer_index inv) /\ In p bucket.

(** Buckets have distinct keys, hold only products of their key, are never
    empty, and together hold every product of the list. *)
Record index_ok (inv : Inventory.t) : Prop := {
  keys_distinct : NoDup (dict_keys (Inventory.manufacturer_index inv));
  bucket_is_filter :
    forall key bucket,
      dict_get (Inventory.manufacturer_index inv) key = Some bucket ->
      bucket <> [] /\
      bucket =
        filter (fun p => String.eqb (Product.manufacturer p) key)
               (Inventory.product_list inv);
  product_has_bucket :
    forall p, In p (Inventory.product_list inv) ->
      In (Product.manufacturer p) (dict_keys (Inventory.manufacturer_index inv))
}.

(** ** The loop *)

(** What the loop body decides for one listing. *)
Definition decide (inventory : Inventory.t) (listing : Listing.t)
  : result (option Product.t) :=
  let inv_manufacturers := dict_keys (Inventory.manufacturer_index inventory) in
  listing_manufacturer <- Matcher.manufacturer_match inv_manufacturers listing ;;
  match listing_manufacturer with
  | Some m =>
      match Inventory.items_by_manufacturer inventory m with
      | [] => Ok None
      | (_ :: _) as potential_items => Matcher.find_match potential_items listing
      end
  | None => Ok None
  end.

(** The three ways a listing ends without a match: its title does not
    resolve to exactly one manufacturer of the index; it resolves to one with
    no candidate; it resolves and no candidate's score says matched. *)
Definition no_match (inventory : Inventory.t) (listing : Listing.t) : Prop :=
  let names := dict_keys (Inventory.manufacturer_index inventory) in
  let t := Listing.title listing in
  (~ exists m, resolves_to names t m)
  \/ (exists m, resolves_to names t m
                /\ Inventory.items_by_manufacturer inventory m = [])
  \/ (exists m, resolves_to names t m
                /\ forall p c,
                     In p (Inventory.items_by_manufacturer inventory m) ->
                     Matcher.product_name_match p listing <> Ok (true, c)).

(** Every pattern the run can build from the catalogue compiles. *)
Definition patterns_compile (product_list : list Product.t) : Prop :=
  Forall (fun p => compiles (Product.manufacturer p)
                   /\ compiles (Matcher.product_regex (keywords p)))
         product_list.

(** Two runs of the whole reconciliation, one after the other. *)
Definition reconcile_twice (product_list : list Product.t)
  (listing_list : list Listing.t) : result (dict Product.t * dict Product.t) :=
  first <- reconcile product_list listing_list ;;
  second <- reconcile product_list listing_list ;;
  Ok (first, second).

(** * Further notions: the order of keys *)

(** Each string of the list once, at the place of its first occurrence:
    the order in which a dictionary lists keys that were assigned in the
    order of the list. *)
Fixpoint first_occurrences (l : list string) : list string :=
  match l with
  | [] => []
  | x :: l' =>
      x :: filter (fun y => negb (String.eqb y x)) (first_occurrences l')
  end.

Definition has_key (keys : list string) (k : string) : bool :=
  existsb (String.eqb k) keys.

(** * Further notions: titles and names up to case and separators *)

(** The title begins with the name, letters compared without case. *)
Definition starts_with_ignoring_case (name t : string) : Prop :=
  exists rest, upper t = (upper name ++ rest)%string.

(** The listing with another title. *)
Definition with_title (listing : Listing.t) (t : string) : Listing.t :=
  {| Listing.title := t;
     Listing.manufacturer := Listing.manufacturer listing;
     Listing.currency := Listing.currency listing;
     Listing.price := Listing.price listing |}.

(** The name with every separator written ['_']. *)
Fixpoint unify_separators (s : string) : string :=
  match s with
  | EmptyString => EmptyString
  | String c s' =>
      String (if is_sep c then "_"%char else c) (unify_separators s')
  end.

(** * Further notions: the score as a truth value *)

(** The score says matched (a score that fails counts as not matched). *)
Definition scored_matched (listing : Listing.t) (p : Product.t) : bool :=
  match Matcher.product_name_match p listing with
  | Ok (matched, _) => matched
  | Fail _ => false
  end.

(** * The representations and the loaders

    The rest of the source file: the two [__repr__] methods and the two
    functions that read the input files.  A file is the list of its lines,
    as iterating over it gives them.  [json.loads] belongs to Python's
    library and is a parameter here: any function from the text of a line
    to a value or an exception. *)

(** [Listing.__repr__] and [Product.__repr__], on records whose fields are
    strings: ['{}'.format(s)] is [s] itself for a string. *)
Definition Listing_repr (self : Listing.t) : string :=
  ("Listing<title=" ++ Listing.title self ++ ">")%string.

Definition Product_repr (self : Product.t) : string :=
  ("Product<manufacturer=" ++ Product.manufacturer self
   ++ ",model=" ++ Product.model self
   ++ ",product_name=" ++ Product.product_name self ++ ">")%string.

(** What [json.loads] returns: [None], a truth value, a number (kept as its
    text), a string, a list, or a dictionary with string keys. *)
Local Unset Elimination Schemes.

Inductive json : Type :=
| JNull
| JBool (b : bool)
| JNumber (text : string)
| JString (s : string)
| JArray (items : list json)
| JObject (members : dict json).

Local Set Elimination Schemes.

(** The exceptions the loaders can meet.  [KeyError] carries the missing
    key; [OtherError] stands for any exception of [json.loads] that is not
    a [JSONDecodeError]. *)
Inductive exception : Type :=
| JSONDecodeError
| KeyError (key : string)
| TypeError
| AttributeError
| OtherError (name : string).

Inductive outcome (A : Type) : Type :=
| Returns (a : A)
| Raises (e : exception).

Arguments Returns {A} a.
Arguments Raises {A} e.

Definition and_then {A B : Type} (m : outcome A) (k : A -> outcome B)
  : outcome B :=
  match m with
  | Returns a => k a
  | Raises e => Raises e
  end.

Notation "x <~ m ;; k" := (and_then m (fun x => k))
  (at level 61, m at next level, right associativity).

(** [s.strip()]: the characters Python counts as white space, among the
    first 128, are 9 to 13 and 28 to 32. *)
Definition is_space (c : ascii) : bool :=
  let n := N_of_ascii c in
  (((9 <=? n) && (n <=? 13)) || ((28 <=? n) && (n <=? 32)))%N.

Fixpoint lstrip (s : string) : string :=
  match s with
  | EmptyString => EmptyString
  | String c s' => if is_space c then lstrip s' else s
  end.

Fixpoint rstrip (s : string) : string :=
  match s with
  | EmptyString => EmptyString
  | String c s' =>
      match rstrip s' with
      | EmptyString => if is_space c then EmptyString else String c EmptyString
      | kept => String c kept
      end
  end.

Definition strip (s : string) : string := rstrip (lstrip s).

(** [v[key]] with a string key: a dictionary gives the value or raises
    [KeyError]; any other JSON value raises [TypeError]. *)
Definition getitem (v : json) (key : string) : outcome json :=
  match v with
  | JObject members =>
      match dict_get members key with
      | Some x => Returns x
      | None => Raises (KeyError key)
      end
  | _ => Raises TypeError
  end.

(** [v.get(key)]: on a dictionary, the value or [None]. *)
Definition get (v : json) (key : string) : outcome json :=
  match v with
  | JObject members =>
      match dict_get members key with
      | Some x => Returns x
      | None => Returns JNull
      end
  | _ => Raises AttributeError
  end.

(** The objects the loaders build: the classes store the values they are
    given, whatever their type.  [Product.t] and [Listing.t] above are these
    objects when the fields are strings. *)
Module Loaded.

Module Product.
Record t : Type := {
  product_name : json;
  manufacturer : json;
  model : json;
  announced_date : json;
  family : json
}.
End Product.

Module Listing.
Record t : Type := {
  title : json;
  manufacturer : json;
  currency : json;
  price : json
}.
End Listing.

End Loaded.

(** [list.append(x)] with the class [list] itself: the method is called
    with [x] in the place of the list, and [x] is not a list. *)
Definition list_append_unbound (x : Loaded.Listing.t)
  : outcome (list Loaded.Listing.t) :=
  Raises TypeError.

Section Loaders.

Variable loads : string -> outcome json.

(** The arguments of [Product(...)], evaluated left to right. *)
Definition new_product (product_json : json) : outcome Loaded.Product.t :=
  manufacturer <~ getitem product_json "manufacturer" ;;
  model <~ getitem product_json "model" ;;
  product_name <~ getitem product_json "product_name" ;;
  announced_date <~ getitem product_json "announced-date" ;;
  family <~ get product_json "family" ;;
  Returns {| Loaded.Product.product_name := product_name;
             Loaded.Product.manufacturer := manufacturer;
             Loaded.Product.model := model;
             Loaded.Product.announced_date := announced_date;
             Loaded.Product.family := family |}.

Definition new_listing (listing_json : json) : outcome Loaded.Listing.t :=
  title <~ getitem listing_json "title" ;;
  manufacturer <~ getitem listing_json "manufacturer" ;;
  currency <~ getitem listing_json "currency" ;;
  price <~ getitem listing_json "price" ;;
  Returns {| Loaded.Listing.title := title;
             Loaded.Listing.manufacturer := manufacturer;
             Loaded.Listing.currency := currency;
             Loaded.Listing.price := price |}.

(** The line printed for a line that is not JSON (the line as read, not
    stripped). *)
Definition not_json_message (line : string) : string :=
  ("Error deserializing " ++ line ++ ", not a valid json string")%string.

(** [load_products]: the body of the [try], then the loop.  Only
    [JSONDecodeError] is caught; the result comes with the lines printed. *)
Definition load_product_line (line : string) : outcome Loaded.Product.t :=
  product_json <~ loads (strip line) ;;
  new_product product_json.

Fixpoint load_products_from (products_fp : list string)
  (printed : list string) (products : list Loaded.Product.t)
  : list string * outcome (list Loaded.Product.t) :=
  match products_fp with
  | [] => (printed, Returns products)
  | line :: products_fp' =>
      match load_product_line line with
      | Returns new_product =>
          load_products_from products_fp' printed (products ++ [new_product])
      | Raises JSONDecodeError =>
          load_products_from products_fp'
            (printed ++ [not_json_message line]) products
      | Raises e => (printed, Raises e)
      end
  end.

Definition load_products (products_fp : list string)
  : list string * outcome (list Loaded.Product.t) :=
  load_products_from products_fp [] [].

(** [load_listings]: nothing is caught. *)
Fixpoint load_listings_from (listings_fp : list string)
  (listings : list Loaded.Listing.t) : outcome (list Loaded.Listing.t) :=
  match listings_fp with
  | [] => Returns listings
  | line :: listings_fp' =>
      listing_json <~ loads (strip line) ;;
      new_listing <~ new_listing listing_json ;;
      listings' <~ list_append_unbound new_listing ;;
      load_listings_from listings_fp' listings'
  end.

Definition load_listings (listings_fp : list string)
  : outcome (list Loaded.Listing.t) :=
  load_listings_from listings_fp [].

(** The line is not JSON: decoding it raises [JSONDecodeError]. *)
Definition not_json (line : string) : bool :=
  match loads (strip line) with
  | Raises JSONDecodeError => true
  | _ => false
  end.

End Loaders.

(** The text has no comma. *)
Fixpoint no_comma (s : string) : bool :=
  match s with
  | EmptyString => true
  | String c s' => negb (Ascii.eqb c ",") && no_comma s'
  end.

(** A decoder for the examples: it knows two texts and rejects every other
    one, and agrees with [json.loads] on the texts the examples use. *)
Definition quoted (s : string) : string :=
  (String (ascii_of_N 34) s ++ String (ascii_of_N 34) "")%string.

Definition sample_product_text : string :=
  ("{" ++ quoted "product_name" ++ ":" ++ quoted "Canon_A20" ++ ","
   ++ quoted "manufacturer" ++ ":" ++ quoted "Canon" ++ ","
   ++ quoted "model" ++ ":" ++ quoted "A20" ++ ","
   ++ quoted "announced-date" ++ ":" ++ quoted "2010" ++ "}")%string.

Definition sample_product_json : json :=
  JObject [("product_name", JString "Canon_A20");
           ("manufacturer", JString "Canon");
           ("model", JString "A20");
           ("announced-date", JString "2010")].

Definition sample_loads (text : string) : outcome json :=
  if String.eqb text "{}" then Returns (JObject [])
  else if String.eqb text sample_product_text then Returns sample_product_json
  else Raises JSONDecodeError.

(** * The matchers and the loop over any pattern engine

    [re.match] and [str.upper] belong to Python's library.  [Py] models them
    on a fragment of the pattern syntax and on ASCII text; here they are
    parameters, so that what is proved holds for Python's own: [engine
    pattern text] is [re.match(pattern, text, flags=re.IGNORECASE)], either
    a failure (the pattern does not compile) or the truth value of the
    match, and [to_upper] is [str.upper].  Everything else is the source as
    before.  Strings can be read as encoded text (UTF-8): equality, the
    splitting at ['_'] and ['-'], concatenation and the lexicographic order
    are the same on the encoding. *)

Section AnyEngine.

Variable engine : string -> string -> result bool.
Variable to_upper : string -> string.

Definition manufacturer_match_with (manufacturer_list : list string)
  (listing : Listing.t) : result (option string) :=
  matched_brands <-
    for_each
      (fun matched_brands brand =>
         matched <- engine brand (Listing.title listing) ;;
         Ok (if matched : bool then matched_brands ++ [brand]
             else matched_brands))
      manufacturer_list [] ;;
  match matched_brands with
  | [brand] => Ok (Some brand)
  | _ => Ok None
  end.

(** [re.compile] followed by [re.match] on the compiled pattern is one call
    of the engine: a pattern that does not compile fails either way. *)
Definition product_name_match_with (product : Product.t) (listing : Listing.t)
  : result (bool * Z) :=
  let pn_keywords := map to_upper (split_sep (Product.product_name product)) in
  regex_match <-
    engine (Matcher.product_regex pn_keywords) (Listing.title listing) ;;
  Ok (regex_match, 80%Z).

Definition find_match_with (product_list : list Product.t)
  (listing : Listing.t) : result (option Product.t) :=
  potential_fits <-
    for_each
      (fun potential_fits product =>
         scored <- product_name_match_with product listing ;;
         let '(matched, confidence_bonus) := scored in
         Ok (if matched : bool then potential_fits ++ [product]
             else potential_fits))
      (sorted Product.product_name product_list) [] ;;
  match potential_fits with
  | [] => Ok None
  | _ :: _ => Ok (last_item potential_fits)
  end.

Definition reconcile_step_with (inventory : Inventory.t)
  (matches : dict Product.t) (listing : Listing.t) : result (dict Product.t) :=
  let inv_manufacturers := dict_keys (Inventory.manufacturer_index inventory) in
  listing_manufacturer <- manufacturer_match_with inv_manufacturers listing ;;
  let potential_items :=
    match listing_manufacturer with
    | Some m => Inventory.items_by_manufacturer inventory m
    | None => []
    end in
  match potential_items with
  | [] => Ok matches
  | _ :: _ =>
      matched_item <- find_match_with potential_items listing ;;
      match matched_item with
      | Some item => Ok (dict_set matches (Listing.title listing) item)
      | None => Ok matches
      end
  end.

Definition reconcile_with (product_list : list Product.t)
  (listing_list : list Listing.t) : result (dict Product.t) :=
  let matches := [] in
  let inventory := Inventory.init product_list in
  for_each (reconcile_step_with inventory) listing_list matches.

(** A valid pattern: the engine fails on no text. *)
Definition valid_pattern (pattern : string) : Prop :=
  forall text, exists matched, engine pattern text = Ok matched.

(** The name, used as a pattern, matches at the start of the title. *)
Definition matches_with (name t : string) : Prop := engine name t = Ok true.

Definition matches_withb (name t : string) : bool :=
  match engine name t with
  | Ok b => b
  | Fail _ => false
  end.

(** Exactly one of the names matches the title, and it is [m]. *)
Definition resolves_to_with (names : list string) (t m : string) : Prop :=
  In m names /\ matches_with m t /\
  forall n, In n names -> matches_with n t -> n = m.

(** The three ways a listing ends without a match: its title does not
    resolve to exactly one manufacturer of the index; it resolves to one with
    no candidate; it resolves and no candidate's score says matched. *)
Definition no_match_with (inventory : Inventory.t) (listing : Listing.t)
  : Prop :=
  let names := dict_keys (Inventory.manufacturer_index inventory) in
  let t := Listing.title listing in
  (~ exists m, resolves_to_with names t m)
  \/ (exists m, resolves_to_with names t m
                /\ Inventory.items_by_manufacturer inventory m = [])
  \/ (exists m, resolves_to_with names t m
                /\ forall p c,
                     In p (Inventory.items_by_manufacturer inventory m) ->
                     product_name_match_with p listing <> Ok (true, c)).

(** Every manufacturer name of the catalogue and every pattern built from a
    product name of the catalogue is a valid pattern. *)
Definition patterns_valid (product_list : list Product.t) : Prop :=
  Forall
    (fun p =>
       valid_pattern (Product.manufacturer p)
       /\ valid_pattern
            (Matcher.product_regex
               (map to_upper (split_sep (Product.product_name p)))))
    product_list.

(** What the loop body decides for one listing. *)
Definition decide_with (inventory : Inventory.t) (listing : Listing.t)
  : result (option Product.t) :=
  let inv_manufacturers := dict_keys (Inventory.manufacturer_index inventory) in
  listing_manufacturer <- manufacturer_match_with inv_manufacturers listing ;;
  match listing_manufacturer with
  | Some m =>
      match Inventory.items_by_manufacturer inventory m with
      | [] => Ok None
      | (_ :: _) as potential_items => find_match_with potential_items listing
      end
  | None => Ok None
  end.

End AnyEngine.

(** Text of the first 128 characters only: where [Py]'s upper-casing and
    case folding are Python's. *)
Fixpoint is_ascii (s : string) : bool :=
  match s with
  | EmptyString => true
  | String c s' => (N_of_ascii c <? 128)%N && is_ascii s'
  end.

(** * Facts about the Python layer *)

Section StringFacts.

Lemma sapp_nil_r (s : string) : (s ++ "")%string = s.
Proof. induction s; simpl; congruence. Qed.

Lemma sapp_assoc (a b c : string) : ((a ++ b) ++ c)%string = (a ++ (b ++ c))%string.
Proof. induction a; simpl; congruence. Qed.

Lemma sapp_eq_nil (a b : string) : (a ++ b)%string = "" -> a = "" /\ b = "".
Proof. destruct a; simpl; [auto | discriminate]. Qed.

Lemma sapp_eq_cons (a b : string) (c : ascii) (s : string) :
  (a ++ b)%string = String c s ->
  (a = "" /\ b = String c s) \/ (exists a', a = String c a' /\ s = (a' ++ b)%string).
Proof.
  destruct a as [|x a']; simpl; intro H.
  - left; auto.
  - right; injection H as -> <-. eauto.
Qed.

End StringFacts.

Section RegexFacts.

Lemma Lang_Empty_inv s : Lang Empty s -> False.
Proof. inversion 1. Qed.

Lemma Lang_Eps_inv s : Lang Eps s -> s = "".
Proof. inversion 1; reflexivity. Qed.

Lemma Lang_Cat_inv r1 r2 s :
  Lang (Cat r1 r2) s -> exists s1 s2, s = (s1 ++ s2)%string /\ Lang r1 s1 /\ Lang r2 s2.
Proof. inversion 1; subst; eauto. Qed.

Lemma Lang_Alt_inv r1 r2 s : Lang (Alt r1 r2) s -> Lang r1 s \/ Lang r2 s.
Proof. inversion 1; subst; auto. Qed.

Lemma Lang_cat r1 r2 s : Lang (cat r1 r2) s <-> Lang (Cat r1 r2) s.
Proof.
  split.
  - destruct r1, r2; simpl; intro H; try exact H;
      try (exfalso; exact (Lang_Empty_inv H));
      exact (LCat LEps H).
  - intro H. apply Lang_Cat_inv in H as (s1 & s2 & -> & H1 & H2).
    destruct r1, r2; simpl;
      try (exfalso; exact (Lang_Empty_inv H1));
      try (exfalso; exact (Lang_Empty_inv H2));
      try (apply Lang_Eps_inv in H1; subst s1; exact H2);
      exact (LCat H1 H2).
Qed.

Lemma Lang_alt r1 r2 s : Lang (alt r1 r2) s <-> Lang (Alt r1 r2) s.
Proof.
  split.
  - destruct r1, r2; simpl; intro H; try exact H;
      try (exfalso; exact (Lang_Empty_inv H));
      first [ exact (LAltL _ H) | exact (LAltR _ H) ].
  - intro H. apply Lang_Alt_inv in H as [H | H];
      destruct r1, r2; simpl;
      try (exfalso; exact (Lang_Empty_inv H));
      first [ exact H | exact (LAltL _ H) | exact (LAltR _ H) ].
Qed.

Lemma nullable_spec r : nullable r = true <-> Lang r "".
Proof.
  induction r; simpl; split; intro H;
    try discriminate; try (now constructor); try (now inversion H); auto.
  - apply andb_true_iff in H as [H1 H2].
    exact (LCat (proj1 IHr1 H1) (proj1 IHr2 H2)).
  - apply Lang_Cat_inv in H as (s1 & s2 & E & H1 & H2).
    symmetry in E. apply sapp_eq_nil in E as [-> ->].
    apply andb_true_iff; split; [apply IHr1 | apply IHr2]; assumption.
  - apply orb_true_iff in H as [H | H];
      [apply LAltL, IHr1 | apply LAltR, IHr2]; assumption.
  - apply orb_true_iff. apply Lang_Alt_inv in H as [H | H];
      [left; apply IHr1 | right; apply IHr2]; assumption.
Qed.

Lemma Lang_Star_cons_inv r w :
  Lang (Star r) w -> forall c s, w = String c s ->
  exists s1 s2, s = (s1 ++ s2)%string /\ Lang r (String c s1) /\ Lang (Star r) s2.
Proof.
  intro H. remember (Star r) as R eqn:ER.
  induction H; intros c0 s0 E; try discriminate.
  injection ER as ->.
  apply sapp_eq_cons in E as [[-> ->] | (a' & -> & ->)].
  - apply IHLang2; reflexivity.
  - exists a', s2. auto.
Qed.

Lemma deriv_spec r : forall c s, Lang (deriv c r) s <-> Lang r (String c s).
Proof.
  induction r as [ | | a | | r1 IHr1 r2 IHr2 | r1 IHr1 r2 IHr2 | r IHr];
    intros c s; simpl.
  - split; inversion 1.
  - split; inversion 1.
  - destruct (Ascii.eqb_spec (upper_char a) (upper_char c)) as [E | NE]; split; intro H.
    + apply Lang_Eps_inv in H; subst. constructor; assumption.
    + inversion H; subst. constructor.
    + inversion H.
    + inversion H; subst. contradiction.
  - destruct (Ascii.eqb_spec c newline) as [E | NE]; split; intro H.
    + inversion H.
    + inversion H; subst. congruence.
    + apply Lang_Eps_inv in H; subst. constructor; assumption.
    + inversion H; subst. constructor.
  - rewrite Lang_alt. split; intro H.
    + apply Lang_Alt_inv in H as [H | H].
      * apply Lang_cat, Lang_Cat_inv in H as (s1 & s2 & -> & H1 & H2).
        apply IHr1 in H1. exact (LCat H1 H2).
      * destruct (nullable r1) eqn:N; [| inversion H].
        apply nullable_spec in N. apply IHr2 in H. exact (LCat N H).
    + apply Lang_Cat_inv in H as (s1 & s2 & E & H1 & H2).
      symmetry in E. apply sapp_eq_cons in E as [[-> ->] | (a' & -> & ->)].
      * apply LAltR. apply nullable_spec in H1. rewrite H1. apply IHr2; assumption.
      * apply LAltL, Lang_cat. apply IHr1 in H1. exact (LCat H1 H2).
  - rewrite Lang_alt. split; intro H.
    + apply Lang_Alt_inv in H as [H | H];
        [apply LAltL, IHr1 | apply LAltR, IHr2]; assumption.
    + apply Lang_Alt_inv in H as [H | H];
        [apply LAltL, IHr1 | apply LAltR, IHr2]; assumption.
  - rewrite Lang_cat. split; intro H.
    + apply Lang_Cat_inv in H as (s1 & s2 & -> & H1 & H2).
      apply IHr in H1. exact (LStarS H1 H2).
    + destruct (Lang_Star_cons_inv H eq_refl) as (s1 & s2 & -> & H1 & H2).
      apply IHr in H1. exact (LCat H1 H2).
Qed.

(** [re.match] succeeds exactly when the pattern matches a prefix. *)
Lemma prefix_match_spec s : forall r,
  prefix_match r s = true <-> exists p q, s = (p ++ q)%string /\ Lang r p.
Proof.
  induction s as [| c s IH]; intro r; simpl.
  - rewrite orb_false_r, nullable_spec. split.
    + intro H. exists "", "". auto.
    + intros (p & q & E & H). symmetry in E.
      apply sapp_eq_nil in E as [-> _]. exact H.
  - rewrite orb_true_iff, nullable_spec, IH. split.
    + intros [H | (p & q & -> & H)].
      * exists "", (String c s). auto.
      * exists (String c p), q. split; [reflexivity | apply deriv_spec; exact H].
    + intros (p & q & E & H). symmetry in E.
      apply sapp_eq_cons in E as [[-> _] | (a' & -> & ->)].
      * left; exact H.
      * right. exists a', q. split; [reflexivity | apply deriv_spec; exact H].
Qed.

End RegexFacts.

Section ParserFacts.

Lemma is_special_upper_char c : is_special (upper_char c) = is_special c.
Proof. destruct c as [[] [] [] [] [] [] [] []]; reflexivity. Qed.

Lemma is_sep_not_special c : is_sep c = true -> is_special c = false.
Proof.
  unfold is_sep. intro H. apply orb_true_iff in H as [H | H];
    apply Ascii.eqb_eq in H; subst; reflexivity.
Qed.

Lemma plain_upper s : plain s = true -> plain (upper s) = true.
Proof.
  induction s as [| c s IH]; simpl; [reflexivity |].
  rewrite is_special_upper_char.
  intro H. apply andb_true_iff in H as [-> H]. simpl. auto.
Qed.

Lemma plain_split_sep s :
  plain s = true -> Forall (fun w => plain w = true) (split_sep s).
Proof.
  induction s as [| c s IH]; simpl; intro H.
  - repeat constructor.
  - apply andb_true_iff in H as [Hc H]. specialize (IH H).
    destruct (is_sep c).
    + constructor; [reflexivity | exact IH].
    + destruct (split_sep s) as [| w ws].
      * repeat constructor. simpl. now rewrite Hc.
      * inversion IH; subst. constructor; [| assumption].
        simpl. rewrite Hc. assumption.
Qed.

Lemma plain_keywords p :
  plain (Product.product_name p) = true ->
  Forall (fun w => plain w = true) (keywords p).
Proof.
  intro H. unfold keywords. apply Forall_map.
  eapply Forall_impl; [| apply plain_split_sep; exact H].
  intros w Hw. apply plain_upper; exact Hw.
Qed.

(** A character that is not special is read as a literal. *)
Lemma parse_plain_char c cur stack s :
  is_special c = false ->
  parse cur stack (String c s) = parse ((Chr c, false) :: cur) stack s.
Proof.
  unfold is_special. intro H.
  repeat (apply orb_false_iff in H as [H ?]).
  cbn [parse]. now repeat match goal with E : _ = false |- _ => rewrite E; clear E end.
Qed.

Lemma parse_plain kw : forall cur stack rest,
  plain kw = true ->
  parse cur stack (kw ++ rest) = parse (read_plain kw cur) stack rest.
Proof.
  induction kw as [| c kw IH]; intros cur stack rest H.
  - reflexivity.
  - cbn [plain] in H. cbn [append read_plain].
    apply andb_true_iff in H as [Hc H]. apply negb_true_iff in Hc.
    rewrite parse_plain_char by exact Hc. apply IH; exact H.
Qed.

Lemma seq_of_read_plain s : forall cur acc,
  seq_of (read_plain s cur) acc = seq_of cur (literal_onto s acc).
Proof.
  induction s as [| c s IH]; intros cur acc; simpl; [reflexivity |].
  rewrite IH. reflexivity.
Qed.

Lemma literal_onto_Eps s : literal_onto s Eps = literal s.
Proof. induction s; simpl; congruence. Qed.

(** A plain text compiles to itself. *)
Lemma compile_plain s : plain s = true -> compile s = Ok (literal s).
Proof.
  intro H. unfold compile.
  rewrite <- (sapp_nil_r s) at 1. rewrite parse_plain by exact H.
  simpl. rewrite seq_of_read_plain. simpl. now rewrite literal_onto_Eps.
Qed.

Lemma parse_open cur stack s :
  parse cur stack (String "(" s) = parse [] (cur :: stack) s.
Proof. reflexivity. Qed.

(** One round of the keyword loop, as the parser reads it. *)
Lemma parse_keyword kw cur stack rest :
  plain kw = true ->
  parse cur stack ((((("" ++ "(") ++ kw) ++ ")") ++ "{1}.*") ++ rest)
  = parse ((Star Any, true) :: (Cat (literal kw) Eps, true) :: cur) stack rest.
Proof.
  intro H. rewrite !sapp_assoc. cbn [append].
  rewrite parse_open, parse_plain by exact H.
  cbn. rewrite seq_of_read_plain. cbn. now rewrite literal_onto_Eps.
Qed.

Lemma product_regex_onto kws : forall acc,
  fold_left
    (fun product_regex kw =>
       ((((product_regex ++ "(") ++ kw) ++ ")") ++ "{1}.*")%string) kws acc
  = (acc ++ Matcher.product_regex kws)%string.
Proof.
  unfold Matcher.product_regex.
  induction kws as [| kw kws IH]; intro acc; simpl.
  - now rewrite sapp_nil_r.
  - rewrite IH. rewrite (IH (String "(" _)).
    cbn [append]. rewrite !sapp_assoc. reflexivity.
Qed.

Lemma product_regex_cons kw kws :
  Matcher.product_regex (kw :: kws)
  = ((((("" ++ "(") ++ kw) ++ ")") ++ "{1}.*") ++ Matcher.product_regex kws)%string.
Proof.
  unfold Matcher.product_regex at 1. simpl fold_left.
  now rewrite product_regex_onto.
Qed.

Lemma parse_product_regex kws : forall cur,
  Forall (fun w => plain w = true) kws ->
  parse cur [] (Matcher.product_regex kws) = Ok (seq_of cur (keyword_regex kws)).
Proof.
  induction kws as [| kw kws IH]; intros cur H.
  - reflexivity.
  - inversion H; subst. rewrite product_regex_cons, parse_keyword by assumption.
    rewrite IH by assumption. reflexivity.
Qed.

(** The pattern of plain keywords compiles to [keyword_regex]. *)
Lemma compile_product_regex kws :
  Forall (fun w => plain w = true) kws ->
  compile (Matcher.product_regex kws) = Ok (keyword_regex kws).
Proof. intro H. unfold compile. now rewrite parse_product_regex. Qed.

End ParserFacts.

(** * The product matcher *)

Section ProductNameMatch.

Lemma upper_eq_nil s : upper s = "" -> s = "".
Proof. destruct s; simpl; [reflexivity | discriminate]. Qed.

Lemma Lang_literal kw : forall found,
  upper found = upper kw -> Lang (literal kw) found.
Proof.
  induction kw as [| a kw IH]; intros found E; simpl in *.
  - apply upper_eq_nil in E. subst. constructor.
  - destruct found as [| c found]; simpl in E; [discriminate |].
    injection E as Ec E.
    change (String c found) with (String c "" ++ found)%string.
    constructor; [constructor; congruence | apply IH; exact E].
Qed.

Lemma Lang_star_any gap : no_newline gap = true -> Lang (Star Any) gap.
Proof.
  induction gap as [| c gap IH]; simpl; intro H.
  - constructor.
  - apply andb_true_iff in H as [Hc H]. apply negb_true_iff in Hc.
    change (String c gap) with (String c "" ++ gap)%string.
    constructor; [constructor | apply IH; exact H].
    apply Ascii.eqb_neq; exact Hc.
Qed.

Lemma starts_in_order_Lang kws : forall t,
  starts_in_order kws t ->
  exists p q, t = (p ++ q)%string /\ Lang (keyword_regex kws) p.
Proof.
  induction kws as [| kw kws IH]; intros t H; simpl in *.
  - exists "", t. split; [reflexivity | constructor].
  - destruct H as (found & gap & rest & -> & Ef & Hg & Hrest).
    destruct (IH rest Hrest) as (p & q & -> & Hp).
    exists (found ++ gap ++ p)%string, q. split.
    + now rewrite !sapp_assoc.
    + rewrite <- (sapp_nil_r found) at 1.
      repeat constructor; auto using Lang_literal, Lang_star_any.
Qed.

(** The score of a product with plain keywords against a title that holds
    them from its start. *)
Lemma product_name_match_true product listing :
  Forall (fun w => plain w = true) (keywords product) ->
  starts_in_order (keywords product) (Listing.title listing) ->
  Matcher.product_name_match product listing = Ok (true, 80%Z).
Proof.
  intros Hplain Hstarts. unfold Matcher.product_name_match.
  fold (keywords product). rewrite compile_product_regex by exact Hplain.
  simpl. apply starts_in_order_Lang, prefix_match_spec in Hstarts.
  now rewrite Hstarts.
Qed.

Lemma only_separators_plain s : only_separators s = true -> plain s = true.
Proof.
  induction s as [| c s IH]; simpl; intro H; [reflexivity |].
  apply andb_true_iff in H as [Hc H].
  rewrite (is_sep_not_special _ Hc). simpl. auto.
Qed.

Lemma only_separators_split s :
  only_separators s = true -> Forall (fun w => w = "") (split_sep s).
Proof.
  induction s as [| c s IH]; simpl; intro H.
  - repeat constructor.
  - apply andb_true_iff in H as [-> H]. constructor; auto.
Qed.

Lemma empty_keywords_start kws t :
  Forall (fun w => upper w = "") kws -> starts_in_order kws t.
Proof.
  induction 1 as [| kw kws E _ IH]; simpl; [exact I |].
  exists "", "", t. rewrite E. auto.
Qed.

(** C1: the code breaks the property at the product named "A20" and the
    title "Canon A20".  The title contains the only keyword of the product,
    and the docstring of [product_name_match] promises "True if the entire
    product name is present in listing"; yet the score says not matched,
    because [re.match] tries the pattern at the start of the title only. *)
Lemma product_name_match_keyword_not_at_start :
  occurs_in_order (keywords (product_named "A20" "Canon")) "Canon A20" /\
  Matcher.product_name_match
    (product_named "A20" "Canon") (listing_titled "Canon A20")
  = Ok (false, 80%Z).
Proof.
  split; [| reflexivity].
  exists "Canon ", "". split; [reflexivity | exact I].
Qed.

(** C10: a product whose name is empty or made of separators only is
    reported matched against every title, and whenever a score is returned
    its confidence is 80. *)
Theorem product_name_match_only_separators :
  (forall product listing,
     only_separators (Product.product_name product) = true ->
     Matcher.product_name_match product listing = Ok (true, 80%Z))
  /\
  (forall product listing matched confidence,
     Matcher.product_name_match product listing = Ok (matched, confidence) ->
     confidence = 80%Z).
Proof.
  split.
  - intros product listing H. apply product_name_match_true.
    + apply plain_keywords, only_separators_plain, H.
    + apply empty_keywords_start. unfold keywords. apply Forall_map.
      eapply Forall_impl; [| apply only_separators_split; exact H].
      intros w ->. reflexivity.
  - intros product listing matched confidence.
    unfold Matcher.product_name_match.
    destruct (compile _); simpl; [| discriminate].
    intro E. injection E as _ <-. reflexivity.
Qed.

Lemma product_name_match_only_separators_witness :
  only_separators "_-_" = true
  /\ Matcher.product_name_match
       (product_named "_-_" "Canon") (listing_titled "Nikon D90")
     = Ok (true, 80%Z)
  /\ snd (false, 80%Z) = 80%Z.
Proof.
  split; [reflexivity | split].
  - apply (proj1 product_name_match_only_separators
             (product_named "_-_" "Canon") (listing_titled "Nikon D90")).
    reflexivity.
  - apply (proj2 product_name_match_only_separators
             (product_named "A20" "Canon") (listing_titled "Canon A20")
             false 80%Z).
    reflexivity.
Defined.

End ProductNameMatch.

(** * [sorted] *)

Section SortedFacts.

Lemma ascii_compare_lt_trans x y z :
  Ascii.compare x y = Lt -> Ascii.compare y z = Lt -> Ascii.compare x z = Lt.
Proof.
  unfold Ascii.compare. rewrite !N.compare_lt_iff. apply N.lt_trans.
Qed.

Lemma string_leb_trans a : forall b c,
  String.leb a b = true -> String.leb b c = true -> String.leb a c = true.
Proof.
  unfold String.leb.
  induction a as [| x a IH]; intros [| y b] [| z c]; simpl; try congruence.
  destruct (Ascii.compare x y) eqn:E1; try congruence.
  - apply Ascii.compare_eq_iff in E1. subst y.
    destruct (Ascii.compare x z); try congruence. apply IH.
  - intros _. destruct (Ascii.compare y z) eqn:E2; try congruence.
    + apply Ascii.compare_eq_iff in E2. subst z. now rewrite E1.
    + now rewrite (ascii_compare_lt_trans _ _ _ E1 E2).
Qed.

Variable A : Type.
Variable key : A -> string.

Lemma insert_sorted_perm x l : Permutation (insert_sorted key x l) (x :: l).
Proof.
  induction l as [| y l IH]; simpl; [reflexivity |].
  destruct (String.leb (key x) (key y)); [reflexivity |].
  rewrite IH. apply perm_swap.
Qed.

Lemma sorted_perm l : Permutation (sorted key l) l.
Proof.
  induction l as [| x l IH]; simpl; [constructor |].
  rewrite insert_sorted_perm. now constructor.
Qed.

Lemma insert_sorted_sorted x l :
  StronglySorted (key_le key) l ->
  StronglySorted (key_le key) (insert_sorted key x l).
Proof.
  induction 1 as [| y l Hl IH Hy]; simpl.
  - repeat constructor.
  - destruct (String.leb (key x) (key y)) eqn:E.
    + constructor; [constructor; assumption |].
      constructor; [exact E |].
      eapply Forall_impl; [| exact Hy].
      intros z Hz. exact (string_leb_trans _ _ _ E Hz).
    + constructor; [exact IH |].
      apply (Permutation_Forall (Permutation_sym (insert_sorted_perm x l))).
      constructor; [| exact Hy].
      destruct (String.leb_total (key x) (key y)) as [H | H];
        [congruence | exact H].
Qed.

Lemma sorted_sorted l : StronglySorted (key_le key) (sorted key l).
Proof.
  induction l as [| x l IH]; simpl; [constructor |].
  apply insert_sorted_sorted, IH.
Qed.

(** Stability: elements with the same key keep their order. *)
Lemma insert_sorted_stable k x l :
  filter (fun y => String.eqb (key y) k) (insert_sorted key x l)
  = filter (fun y => String.eqb (key y) k) (x :: l).
Proof.
  induction l as [| y l IH]; [reflexivity |].
  cbn [insert_sorted]. destruct (String.leb (key x) (key y)) eqn:E; [reflexivity |].
  cbn [filter] in *. rewrite IH.
  destruct (String.eqb_spec (key x) k) as [Ex | _]; [| reflexivity].
  destruct (String.eqb_spec (key y) k) as [Ey | _]; [| reflexivity].
  exfalso. rewrite Ex, <- Ey in E.
  destruct (String.leb_total (key y) (key y)); congruence.
Qed.

Lemma sorted_stable k l :
  filter (fun y => String.eqb (key y) k) (sorted key l)
  = filter (fun y => String.eqb (key y) k) l.
Proof.
  induction l as [| x l IH]; [reflexivity |].
  cbn [sorted]. rewrite insert_sorted_stable. cbn [filter]. now rewrite IH.
Qed.

End SortedFacts.

(** * Best candidate *)

Section FindMatch.

Lemma find_match_loop listing : forall candidates fits,
  for_each
    (fun potential_fits product =>
       scored <- Matcher.product_name_match product listing ;;
       let '(matched, confidence_bonus) := scored in
       Ok (if matched : bool then potential_fits ++ [product]
           else potential_fits))
    candidates fits
  = (collected <- collect_matched candidates listing ;; Ok (fits ++ collected)).
Proof.
  induction candidates as [| p candidates IH]; intro fits; simpl.
  - now rewrite app_nil_r.
  - destruct (Matcher.product_name_match p listing) as [[matched c] | f];
      simpl; [| reflexivity].
    rewrite IH. destruct (collect_matched candidates listing); simpl;
      [| reflexivity].
    destruct matched; [rewrite <- app_assoc |]; reflexivity.
Qed.

Lemma find_match_find_best product_list listing :
  Matcher.find_match product_list listing = find_best product_list listing.
Proof.
  unfold Matcher.find_match, find_best. rewrite find_match_loop.
  destruct (collect_matched _ listing) as [[| p fits] | f]; reflexivity.
Qed.

(** C3: [find_match] sorts the candidates by name in ascending
    lexicographic order (a sorted rearrangement of the candidates), collects
    in that order those whose score says matched, and returns the last
    collected one, or none when nothing was collected; a failure of a
    candidate's pattern ends both descriptions alike. *)
Theorem find_match_returns_last_sorted_match product_list listing :
  Permutation (sorted Product.product_name product_list) product_list
  /\ StronglySorted name_le (sorted Product.product_name product_list)
  /\ Matcher.find_match product_list listing
     = (collected <-
          collect_matched (sorted Product.product_name product_list) listing ;;
        Ok (last_item collected)).
Proof.
  split; [apply sorted_perm |].
  split; [apply sorted_sorted |].
  apply find_match_find_best.
Qed.

(** The names "Sony_A" and "Sony_A_Pro" against a title holding both
    keyword sequences: the one sorted last is returned, whatever the order
    of the candidates. *)
Example find_match_sony_a_pro :
  Matcher.find_match
    [product_named "Sony_A_Pro" "Sony"; product_named "Sony_A" "Sony"]
    (listing_titled "Sony A Pro kit")
  = Ok (Some (product_named "Sony_A_Pro" "Sony"))
  /\ Matcher.find_match
       [product_named "Sony_A" "Sony"; product_named "Sony_A_Pro" "Sony"]
       (listing_titled "Sony A Pro kit")
     = Ok (Some (product_named "Sony_A_Pro" "Sony")).
Proof. split; reflexivity. Qed.

End FindMatch.

(** * Manufacturer resolution *)

Section ManufacturerMatch.

Lemma compiles_re_match name t :
  compiles name -> re_match name t = Ok (matches_titleb name t).
Proof.
  intros [r E]. unfold matches_titleb, re_match. rewrite E. reflexivity.
Qed.

Lemma matches_titleb_true name t :
  matches_titleb name t = true <-> matches_title name t.
Proof.
  unfold matches_titleb, matches_title.
  destruct (re_match name t) as [[] | f]; split; congruence.
Qed.

Lemma manufacturer_match_loop t : forall names matched_brands,
  Forall compiles names ->
  for_each
    (fun matched_brands brand =>
       matched <- re_match brand t ;;
       Ok (if matched : bool then matched_brands ++ [brand]
           else matched_brands))
    names matched_brands
  = Ok (matched_brands ++ filter (fun n => matches_titleb n t) names).
Proof.
  induction names as [| n names IH]; intros acc H; simpl.
  - now rewrite app_nil_r.
  - inversion H; subst. rewrite compiles_re_match by assumption. simpl.
    rewrite IH by assumption.
    destruct (matches_titleb n t); [rewrite <- app_assoc |]; reflexivity.
Qed.

(** With names that all compile, the resolver returns the only matching
    name when the matching ones are exactly one. *)
Lemma manufacturer_match_filter names listing :
  Forall compiles names ->
  Matcher.manufacturer_match names listing
  = Ok match filter (fun n => matches_titleb n (Listing.title listing)) names with
       | [brand] => Some brand
       | _ => None
       end.
Proof.
  intro H. unfold Matcher.manufacturer_match.
  rewrite manufacturer_match_loop by exact H. simpl.
  destruct (filter _ names) as [| b [| b' l]]; reflexivity.
Qed.

Lemma filter_singleton (f : string -> bool) names m :
  NoDup names ->
  filter f names = [m] <->
  (In m names /\ f m = true /\ forall n, In n names -> f n = true -> n = m).
Proof.
  intro ND. split.
  - intro E. assert (Hm : In m (filter f names)) by (rewrite E; now left).
    apply filter_In in Hm as [Hin Hf]. repeat split; try assumption.
    intros n Hn Hfn. assert (Hn' : In n (filter f names)) by now apply filter_In.
    rewrite E in Hn'. destruct Hn' as [-> | []]. reflexivity.
  - intros (Hin & Hf & Hu). induction ND as [| x names Hx ND IH]; [destruct Hin |].
    simpl. destruct (f x) eqn:Ex.
    + assert (x = m) by (apply Hu; [now left | exact Ex]). subst x.
      f_equal. destruct (filter f names) as [| y l] eqn:El; [reflexivity |].
      exfalso. assert (Hy : In y (filter f names)) by (rewrite El; now left).
      apply filter_In in Hy as [Hy Hfy].
      assert (y = m) by (apply Hu; [now right | exact Hfy]). subst y. auto.
    + destruct Hin as [-> | Hin]; [congruence |].
      apply IH; [exact Hin |]. intros n Hn. apply Hu. now right.
Qed.

Lemma manufacturer_match_resolves_iff names listing m :
  NoDup names -> Forall compiles names ->
  Matcher.manufacturer_match names listing = Ok (Some m)
  <-> resolves_to names (Listing.title listing) m.
Proof.
  intros ND HC. rewrite manufacturer_match_filter by exact HC.
  unfold resolves_to.
  rewrite <- (matches_titleb_true m).
  assert (Hiff : (forall n, In n names ->
                    matches_title n (Listing.title listing) -> n = m)
                 <-> (forall n, In n names ->
                    matches_titleb n (Listing.title listing) = true -> n = m)).
  { split; intros H n Hn Hm; apply H; try assumption;
      now apply matches_titleb_true. }
  rewrite Hiff.
  rewrite <- (filter_singleton
                (fun n => matches_titleb n (Listing.title listing)) m ND).
  destruct (filter _ names) as [| b [| b' l]]; split; congruence.
Qed.

Lemma manufacturer_match_total names listing :
  Forall compiles names ->
  exists r, Matcher.manufacturer_match names listing = Ok r.
Proof. intro H. rewrite manufacturer_match_filter by exact H. eauto. Qed.

Lemma NoDup_two_names (a b : string) : a <> b -> NoDup [a; b].
Proof.
  intro H. repeat constructor; simpl; intuition.
Qed.

(** C2, as stated, fails: of the names "Canon" and "(" exactly one,
    "Canon", matches the title "Canon X", yet the resolver does not return
    it: the name "(" is not a pattern, and testing it ends the call with
    [re.error]. *)
Lemma manufacturer_match_bad_name :
  resolves_to ["Canon"; "("] "Canon X" "Canon" /\
  Matcher.manufacturer_match ["Canon"; "("] (listing_titled "Canon X")
  = Fail re_error.
Proof.
  split; [| reflexivity].
  repeat split; simpl; auto.
  intros n [<- | [<- | []]]; [reflexivity | discriminate].
Qed.

End ManufacturerMatch.

(** * Dictionaries *)

Section DictFacts.

Variable V : Type.
Implicit Types (d : dict V) (k : string) (v : V).

Lemma dict_get_set_same d k v : dict_get (dict_set d k v) k = Some v.
Proof.
  induction d as [| [k' v'] d IH]; simpl.
  - now rewrite String.eqb_refl.
  - destruct (String.eqb k' k) eqn:E; simpl; now rewrite E.
Qed.

Lemma dict_get_set_other d k v k' :
  k' <> k -> dict_get (dict_set d k v) k' = dict_get d k'.
Proof.
  intro N. induction d as [| [k0 v0] d IH]; simpl.
  - apply String.eqb_neq in N. rewrite String.eqb_sym in N. now rewrite N.
  - destruct (String.eqb_spec k0 k) as [-> | Nk]; simpl.
    + apply String.eqb_neq in N. rewrite String.eqb_sym in N. now rewrite N.
    + now rewrite IH.
Qed.

Lemma dict_get_None d k : dict_get d k = None <-> ~ In k (dict_keys d).
Proof.
  induction d as [| [k' v'] d IH]; simpl; [tauto |].
  destruct (String.eqb_spec k' k) as [-> | N]; split.
  - discriminate.
  - intro H. exfalso. auto.
  - intros H [E | Hin]; [contradiction | now apply IH].
  - intro H. apply IH. tauto.
Qed.

Lemma dict_get_Some_In d k v : dict_get d k = Some v -> In (k, v) d.
Proof.
  induction d as [| [k' v'] d IH]; simpl; [discriminate |].
  destruct (String.eqb_spec k' k) as [-> | N].
  - intro E. injection E as ->. now left.
  - intro E. right. now apply IH.
Qed.

Lemma In_dict_get d k v :
  NoDup (dict_keys d) -> In (k, v) d -> dict_get d k = Some v.
Proof.
  induction d as [| [k' v'] d IH]; simpl; intros ND Hin; [destruct Hin |].
  inversion ND as [| ? ? Hk ND']; subst.
  destruct Hin as [E | Hin].
  - injection E as -> ->. now rewrite String.eqb_refl.
  - destruct (String.eqb_spec k' k) as [-> | N]; [| now apply IH].
    exfalso. apply Hk. change k with (fst (k, v)). now apply in_map.
Qed.

Lemma dict_keys_set d k v :
  dict_keys (dict_set d k v)
  = match dict_get d k with
    | Some _ => dict_keys d
    | None => dict_keys d ++ [k]
    end.
Proof.
  induction d as [| [k' v'] d IH]; simpl; [reflexivity |].
  destruct (String.eqb k' k); simpl; [reflexivity |].
  rewrite IH. now destruct (dict_get d k).
Qed.

(** Assigning to a key the value it already has changes nothing. *)
Lemma dict_set_same d k v : dict_get d k = Some v -> dict_set d k v = d.
Proof.
  induction d as [| [k' v'] d IH]; simpl; [discriminate |].
  destruct (String.eqb k' k).
  - intro E. now injection E as ->.
  - intro E. now rewrite IH.
Qed.

End DictFacts.

(** * The index *)

Section InventoryFacts.

Import Inventory.

Lemma items_by_manufacturer_add inv p m :
  items_by_manufacturer (add_product inv p) m
  = if String.eqb (Product.manufacturer p) m
    then items_by_manufacturer inv m ++ [p]
    else items_by_manufacturer inv m.
Proof.
  unfold items_by_manufacturer, add_product. cbn [manufacturer_index].
  destruct (String.eqb_spec (Product.manufacturer p) m) as [<- | N].
  - destruct (dict_get (manufacturer_index inv) (Product.manufacturer p));
      now rewrite dict_get_set_same.
  - destruct (dict_get (manufacturer_index inv) (Product.manufacturer p));
      now rewrite dict_get_set_other by congruence.
Qed.

Lemma items_by_manufacturer_fold ps : forall inv m,
  items_by_manufacturer (fold_left add_product ps inv) m
  = items_by_manufacturer inv m
    ++ filter (fun p => String.eqb (Product.manufacturer p) m) ps.
Proof.
  induction ps as [| p ps IH]; intros inv m; simpl.
  - now rewrite app_nil_r.
  - rewrite IH, items_by_manufacturer_add.
    destruct (String.eqb (Product.manufacturer p) m);
      [rewrite <- app_assoc |]; reflexivity.
Qed.

Lemma product_list_fold ps : forall inv,
  product_list (fold_left add_product ps inv) = product_list inv ++ ps.
Proof.
  induction ps as [| p ps IH]; intro inv; simpl.
  - now rewrite app_nil_r.
  - rewrite IH. simpl. now rewrite <- app_assoc.
Qed.

Lemma product_list_init ps : product_list (init ps) = ps.
Proof. unfold init. now rewrite product_list_fold. Qed.

(** C4: after the products [p1..pn] were added, [items_by_manufacturer m]
    is exactly the sub-sequence of [p1..pn] whose manufacturer is the string
    [m] itself, in insertion order: empty when no product has it, and with
    no folding of case, since the keys are compared as they are. *)
Theorem items_by_manufacturer_init product_list m :
  items_by_manufacturer (init product_list) m
  = filter (fun p => String.eqb (Product.manufacturer p) m) product_list.
Proof. unfold init. now rewrite items_by_manufacturer_fold. Qed.

Lemma index_ok_empty : index_ok empty.
Proof.
  constructor; simpl.
  - constructor.
  - discriminate.
  - intros p [].
Qed.

Lemma filter_none_without_key inv key :
  index_ok inv ->
  dict_get (manufacturer_index inv) key = None ->
  filter (fun p => String.eqb (Product.manufacturer p) key) (product_list inv)
  = [].
Proof.
  intros OK HN. apply dict_get_None in HN.
  destruct (filter _ (product_list inv)) as [| q l] eqn:E; [reflexivity |].
  exfalso. assert (Hq : In q (filter (fun p => String.eqb (Product.manufacturer p) key)
                                (product_list inv))) by (rewrite E; now left).
  apply filter_In in Hq as [Hq Hk]. apply String.eqb_eq in Hk.
  apply HN. rewrite <- Hk. now apply (product_has_bucket OK).
Qed.

Lemma index_ok_add inv p : index_ok inv -> index_ok (add_product inv p).
Proof.
  intro OK. set (kp := Product.manufacturer p).
  assert (Hidx : manufacturer_index (add_product inv p)
                 = dict_set (manufacturer_index inv) kp
                     (items_by_manufacturer inv kp ++ [p])).
  { unfold add_product, items_by_manufacturer. cbn [manufacturer_index].
    fold kp. now destruct (dict_get (manufacturer_index inv) kp). }
  constructor.
  - rewrite Hidx, dict_keys_set.
    destruct (dict_get (manufacturer_index inv) kp) eqn:E.
    + apply (keys_distinct OK).
    + apply dict_get_None in E. apply NoDup_app; repeat split.
      * apply (keys_distinct OK).
      * repeat constructor. simpl. tauto.
      * intros k Hk [<- | []]. contradiction.
  - intros key bucket. rewrite Hidx. cbn [product_list add_product].
    rewrite filter_app. cbn [filter]. fold kp.
    destruct (String.eqb_spec kp key) as [<- | N].
    + rewrite dict_get_set_same. intro E. injection E as <-.
      split; [now destruct (items_by_manufacturer inv kp) |].
      f_equal. unfold items_by_manufacturer.
      destruct (dict_get (manufacturer_index inv) kp) as [b |] eqn:E.
      * apply (bucket_is_filter OK _ E).
      * symmetry. now apply filter_none_without_key.
    + rewrite dict_get_set_other by congruence. rewrite app_nil_r.
      apply (bucket_is_filter OK).
  - intros q Hq. rewrite Hidx, dict_keys_set.
    cbn [product_list add_product] in Hq. apply in_app_or in Hq.
    destruct (dict_get (manufacturer_index inv) kp) eqn:E.
    + destruct Hq as [Hq | [<- | []]].
      * now apply (product_has_bucket OK).
      * fold kp. destruct (dict_get_None (manufacturer_index inv) kp) as [_ H].
        destruct (in_dec String.string_dec kp
                    (dict_keys (manufacturer_index inv))) as [Hin | Hout];
          [exact Hin |].
        apply H in Hout. congruence.
    + apply in_or_app. destruct Hq as [Hq | [<- | []]].
      * left. now apply (product_has_bucket OK).
      * right. now left.
Qed.

Lemma index_ok_fold ps : forall inv,
  index_ok inv -> index_ok (fold_left add_product ps inv).
Proof.
  induction ps as [| p ps IH]; intros inv OK; simpl; [exact OK |].
  apply IH, index_ok_add, OK.
Qed.

Lemma index_ok_init ps : index_ok (init ps).
Proof. apply index_ok_fold, index_ok_empty. Qed.

(** C9: after any sequence of [add_product] calls, the buckets of the index
    have distinct keys, and a product of [product_list] is in the bucket
    stored under a key exactly when that key is the product's own
    manufacturer: it appears in one bucket, its own. *)
Theorem product_in_exactly_its_bucket products p :
  In p (product_list (init products)) ->
  NoDup (dict_keys (manufacturer_index (init products)))
  /\ forall key, in_bucket (init products) key p
                 <-> key = Product.manufacturer p.
Proof.
  intro Hp. pose proof (index_ok_init products) as OK.
  split; [apply (keys_distinct OK) |].
  intro key. split.
  - intros (bucket & Hb & Hin).
    apply In_dict_get in Hb; [| apply (keys_distinct OK)].
    destruct (bucket_is_filter OK _ Hb) as [_ ->].
    apply filter_In in Hin as [_ E]. apply String.eqb_eq in E. now symmetry.
  - intros ->. pose proof (product_has_bucket OK _ Hp) as Hk.
    destruct (dict_get (manufacturer_index (init products))
                (Product.manufacturer p)) as [bucket |] eqn:E.
    + exists bucket. split; [now apply dict_get_Some_In |].
      destruct (bucket_is_filter OK _ E) as [_ ->].
      apply filter_In. split; [exact Hp | apply String.eqb_refl].
    + apply dict_get_None in E. contradiction.
Qed.

Lemma product_in_exactly_its_bucket_witness :
  In (product_named "W800" "Sony")
     (product_list
        (init [product_named "A20" "Canon"; product_named "W800" "Sony"]))
  /\ in_bucket
       (init [product_named "A20" "Canon"; product_named "W800" "Sony"])
       "Sony" (product_named "W800" "Sony")
  /\ ~ in_bucket
         (init [product_named "A20" "Canon"; product_named "W800" "Sony"])
         "Canon" (product_named "W800" "Sony").
Proof.
  assert (Hin : In (product_named "W800" "Sony")
                  (product_list
                     (init [product_named "A20" "Canon";
                            product_named "W800" "Sony"])))
    by (simpl; auto).
  destruct (product_in_exactly_its_bucket
              [product_named "A20" "Canon"; product_named "W800" "Sony"]
              (product_named "W800" "Sony") Hin) as [_ Hkey].
  split; [exact Hin | split].
  - apply Hkey. reflexivity.
  - intro H. apply Hkey in H. discriminate.
Defined.

(** The key is compared as it is: a different case is a different key. *)
Example items_by_manufacturer_other_case :
  items_by_manufacturer (init [product_named "A20" "Canon"]) "canon" = []
  /\ items_by_manufacturer (init [product_named "A20" "Canon"]) "Canon"
     = [product_named "A20" "Canon"].
Proof. split; reflexivity. Qed.

End InventoryFacts.

(** * The reconciliation loop *)

Section Reconcile.

Import Inventory.

Lemma reconcile_step_decide inventory matches listing :
  reconcile_step inventory matches listing
  = (matched_item <- decide inventory listing ;;
     Ok match matched_item with
        | Some item => dict_set matches (Listing.title listing) item
        | None => matches
        end).
Proof.
  unfold reconcile_step, decide.
  destruct (Matcher.manufacturer_match _ listing) as [[m |] | f]; simpl;
    try reflexivity.
  destruct (items_by_manufacturer inventory m); simpl; [reflexivity |].
  destruct (Matcher.find_match _ listing) as [[item |] | f]; reflexivity.
Qed.

(** Of a listing, only the title is read. *)
Lemma decide_title_only inventory l1 l2 :
  Listing.title l1 = Listing.title l2 ->
  decide inventory l1 = decide inventory l2.
Proof.
  intro E. unfold decide, Matcher.manufacturer_match, Matcher.find_match,
    Matcher.product_name_match. now rewrite E.
Qed.

Lemma reconcile_loop_title_only inventory : forall ls1 ls2 matches,
  map Listing.title ls1 = map Listing.title ls2 ->
  for_each (reconcile_step inventory) ls1 matches
  = for_each (reconcile_step inventory) ls2 matches.
Proof.
  induction ls1 as [| l1 ls1 IH]; intros [| l2 ls2] matches E;
    try discriminate; [reflexivity |].
  simpl in E. injection E as Et E. simpl.
  rewrite !reconcile_step_decide, (decide_title_only inventory l1 l2 Et), Et.
  destruct (decide inventory l2); simpl; [| reflexivity].
  now apply IH.
Qed.

(** C8: for two listings with the same title, whatever their manufacturer,
    currency and price fields, the loop body does the same to every mapping,
    and putting one in place of the other in the listing collection leaves
    the result of the run unchanged. *)
Theorem reconcile_reads_title_only products l1 l2 before after :
  Listing.title l1 = Listing.title l2 ->
  (forall matches,
     reconcile_step (init products) matches l1
     = reconcile_step (init products) matches l2)
  /\ reconcile products (before ++ l1 :: after)
     = reconcile products (before ++ l2 :: after).
Proof.
  intro E. split.
  - intro matches. rewrite !reconcile_step_decide.
    now rewrite (decide_title_only (init products) l1 l2 E), E.
  - unfold reconcile. apply reconcile_loop_title_only.
    rewrite !map_app. simpl. now rewrite E.
Qed.

Lemma reconcile_reads_title_only_witness :
  reconcile [product_named "Canon_PowerShot_A20" "Canon"]
    [{| Listing.title := "Canon PowerShot A20";
        Listing.manufacturer := "Canon Canada";
        Listing.currency := "CAD";
        Listing.price := "199.99" |}]
  = reconcile [product_named "Canon_PowerShot_A20" "Canon"]
      [{| Listing.title := "Canon PowerShot A20";
          Listing.manufacturer := "Nikon";
          Listing.currency := "USD";
          Listing.price := "1" |}].
Proof.
  apply (reconcile_reads_title_only
           [product_named "Canon_PowerShot_A20" "Canon"]
           {| Listing.title := "Canon PowerShot A20";
              Listing.manufacturer := "Canon Canada";
              Listing.currency := "CAD";
              Listing.price := "199.99" |}
           {| Listing.title := "Canon PowerShot A20";
              Listing.manufacturer := "Nikon";
              Listing.currency := "USD";
              Listing.price := "1" |}
           [] []).
  reflexivity.
Defined.

(** ** Entries of the output mapping *)

Lemma reconcile_loop_keeps inventory t item : forall ls matches out,
  for_each (reconcile_step inventory) ls matches = Ok out ->
  dict_get matches t = Some item ->
  decide inventory (listing_titled t) = Ok (Some item) ->
  dict_get out t = Some item.
Proof.
  induction ls as [| l ls IH]; intros matches out Hrun Hget Hdec; simpl in Hrun.
  - injection Hrun as <-. exact Hget.
  - rewrite reconcile_step_decide in Hrun.
    destruct (decide inventory l) as [r |] eqn:El; simpl in Hrun;
      [| discriminate].
    apply (IH _ _ Hrun); [| exact Hdec].
    destruct r as [item' |]; [| exact Hget].
    destruct (String.string_dec t (Listing.title l)) as [-> | N].
    + rewrite dict_get_set_same.
      rewrite (decide_title_only inventory l
                 (listing_titled (Listing.title l)) eq_refl) in El.
      congruence.
    + now rewrite dict_get_set_other.
Qed.

Lemma reconcile_loop_sets inventory : forall ls matches out l item,
  for_each (reconcile_step inventory) ls matches = Ok out ->
  In l ls -> decide inventory l = Ok (Some item) ->
  dict_get out (Listing.title l) = Some item.
Proof.
  induction ls as [| l0 ls IH]; intros matches out l item Hrun Hin Hdec;
    [destruct Hin |].
  simpl in Hrun. rewrite reconcile_step_decide in Hrun.
  destruct (decide inventory l0) as [r |] eqn:E0; simpl in Hrun;
    [| discriminate].
  destruct Hin as [-> | Hin]; [| exact (IH _ _ _ _ Hrun Hin Hdec)].
  rewrite Hdec in E0. injection E0 as <-.
  eapply reconcile_loop_keeps; [exact Hrun | |].
  - apply dict_get_set_same.
  - now rewrite <- (decide_title_only inventory l
                      (listing_titled (Listing.title l)) eq_refl).
Qed.

Lemma reconcile_loop_decides inventory : forall ls matches out l,
  for_each (reconcile_step inventory) ls matches = Ok out ->
  In l ls -> exists r, decide inventory l = Ok r.
Proof.
  induction ls as [| l0 ls IH]; intros matches out l Hrun Hin;
    [destruct Hin |].
  simpl in Hrun. rewrite reconcile_step_decide in Hrun.
  destruct (decide inventory l0) as [r |] eqn:E0; simpl in Hrun;
    [| discriminate].
  destruct Hin as [-> | Hin]; [eauto | exact (IH _ _ _ Hrun Hin)].
Qed.

Lemma reconcile_loop_fixpoint inventory : forall ls matches,
  (forall l, In l ls -> exists r, decide inventory l = Ok r) ->
  (forall l item, In l ls -> decide inventory l = Ok (Some item) ->
                  dict_get matches (Listing.title l) = Some item) ->
  for_each (reconcile_step inventory) ls matches = Ok matches.
Proof.
  induction ls as [| l ls IH]; intros matches Hdec Hget; [reflexivity |].
  simpl. rewrite reconcile_step_decide.
  destruct (Hdec l (or_introl eq_refl)) as [r Er]. rewrite Er. simpl.
  assert (E : match r with
              | Some item => dict_set matches (Listing.title l) item
              | None => matches
              end = matches).
  { destruct r as [item |]; [| reflexivity].
    apply dict_set_same, Hget; [now left | exact Er]. }
  rewrite E. apply IH.
  - intros l' H'. apply Hdec. now right.
  - intros l' item H'. apply Hget. now right.
Qed.

Lemma reconcile_loop_entry inventory t item : forall ls matches out,
  for_each (reconcile_step inventory) ls matches = Ok out ->
  dict_get out t = Some item ->
  dict_get matches t = Some item
  \/ exists l, In l ls /\ Listing.title l = t
               /\ decide inventory l = Ok (Some item).
Proof.
  induction ls as [| l ls IH]; intros matches out Hrun Hget; simpl in Hrun.
  - injection Hrun as <-. now left.
  - rewrite reconcile_step_decide in Hrun.
    destruct (decide inventory l) as [r |] eqn:El; simpl in Hrun;
      [| discriminate].
    destruct (IH _ _ Hrun Hget) as [H | (l' & Hin & Et & Hd)].
    + destruct r as [item' |]; [| now left].
      destruct (String.string_dec t (Listing.title l)) as [-> | N].
      * rewrite dict_get_set_same in H. injection H as ->.
        right. exists l. simpl. auto.
      * rewrite dict_get_set_other in H by exact N. now left.
    + right. exists l'. simpl. auto.
Qed.

Lemma reconcile_loop_total inventory : forall ls matches,
  (forall l, exists r, decide inventory l = Ok r) ->
  exists out, for_each (reconcile_step inventory) ls matches = Ok out.
Proof.
  induction ls as [| l ls IH]; intros matches Hdec; simpl; [eauto |].
  rewrite reconcile_step_decide. destruct (Hdec l) as [r ->]. simpl.
  apply IH, Hdec.
Qed.

(** C6: two runs of the whole reconciliation on the same products and
    listings give the same output mapping; moreover, running the loop once
    more over the mapping the first run produced leaves that mapping as it
    is. *)
Theorem reconcile_twice_same_mapping products listings :
  reconcile_twice products listings
  = (out <- reconcile products listings ;; Ok (out, out))
  /\ forall out,
       reconcile products listings = Ok out ->
       for_each (reconcile_step (init products)) listings out = Ok out.
Proof.
  split.
  - unfold reconcile_twice.
    destruct (reconcile products listings); reflexivity.
  - unfold reconcile. intros out Hrun. apply reconcile_loop_fixpoint.
    + intros l Hl. eapply reconcile_loop_decides; eassumption.
    + intros l item Hl Hd. eapply reconcile_loop_sets; eassumption.
Qed.

Lemma reconcile_twice_same_mapping_witness :
  for_each
    (reconcile_step (init [product_named "Canon_PowerShot_A20" "Canon"]))
    [listing_titled "Canon PowerShot A20"; listing_titled "Nikon D90"]
    [("Canon PowerShot A20", product_named "Canon_PowerShot_A20" "Canon")]
  = Ok [("Canon PowerShot A20", product_named "Canon_PowerShot_A20" "Canon")].
Proof.
  apply (proj2 (reconcile_twice_same_mapping
                  [product_named "Canon_PowerShot_A20" "Canon"]
                  [listing_titled "Canon PowerShot A20";
                   listing_titled "Nikon D90"])).
  reflexivity.
Defined.

End Reconcile.

(** * Listings that end without a match *)

Section NoMatch.

Import Inventory.

Lemma product_name_match_total p listing :
  compiles (Matcher.product_regex (keywords p)) ->
  exists matched, Matcher.product_name_match p listing = Ok (matched, 80%Z).
Proof.
  intros [r E]. unfold Matcher.product_name_match. fold (keywords p).
  rewrite E. simpl. eauto.
Qed.

Lemma collect_matched_total listing : forall candidates,
  Forall (fun p => compiles (Matcher.product_regex (keywords p))) candidates ->
  exists collected, collect_matched candidates listing = Ok collected.
Proof.
  induction 1 as [| p candidates Hp _ [collected IH]]; simpl; [eauto |].
  destruct (product_name_match_total p listing Hp) as [matched ->]. simpl.
  rewrite IH. simpl. eauto.
Qed.

Lemma collect_matched_sound listing : forall candidates collected p,
  collect_matched candidates listing = Ok collected ->
  In p collected ->
  In p candidates
  /\ exists c, Matcher.product_name_match p listing = Ok (true, c).
Proof.
  induction candidates as [| q candidates IH]; intros collected p E Hin;
    simpl in E.
  - injection E as <-. destruct Hin.
  - destruct (Matcher.product_name_match q listing) as [[matched c] |] eqn:Eq;
      simpl in E; [| discriminate].
    destruct (collect_matched candidates listing) as [rest |] eqn:Er;
      simpl in E; [| discriminate].
    injection E as <-.
    destruct matched; simpl in Hin.
    + destruct Hin as [<- | Hin]; [split; [now left | eauto] |].
      destruct (IH _ _ eq_refl Hin) as [H1 H2]. split; [now right | exact H2].
    + destruct (IH _ _ eq_refl Hin) as [H1 H2]. split; [now right | exact H2].
Qed.

Lemma last_item_In (A : Type) (l : list A) x : last_item l = Some x -> In x l.
Proof.
  induction l as [| y [| z l] IH]; simpl; intro E.
  - discriminate.
  - injection E as ->. now left.
  - right. apply IH. exact E.
Qed.

(** A product returned by [find_match] is a candidate whose score says
    matched. *)
Lemma find_match_sound candidates listing p :
  Matcher.find_match candidates listing = Ok (Some p) ->
  In p candidates
  /\ exists c, Matcher.product_name_match p listing = Ok (true, c).
Proof.
  rewrite find_match_find_best. unfold find_best.
  destruct (collect_matched _ listing) as [collected |] eqn:E; simpl;
    [| discriminate].
  intro H. injection H as H. apply last_item_In in H.
  destruct (collect_matched_sound _ _ _ E H) as [Hin Hm].
  split; [| exact Hm].
  apply (Permutation_in _ (sorted_perm Product.product_name candidates) Hin).
Qed.

Lemma find_match_total candidates listing :
  Forall (fun p => compiles (Matcher.product_regex (keywords p))) candidates ->
  exists r, Matcher.find_match candidates listing = Ok r.
Proof.
  intro H. rewrite find_match_find_best. unfold find_best.
  assert (HS : Forall (fun p => compiles (Matcher.product_regex (keywords p)))
                 (sorted Product.product_name candidates)).
  { eapply Permutation_Forall; [| exact H].
    apply Permutation_sym, sorted_perm. }
  destruct (collect_matched_total listing HS) as [collected ->].
  simpl. eauto.
Qed.

Lemma items_in_products products m p :
  In p (items_by_manufacturer (init products) m) ->
  In p products /\ Product.manufacturer p = m.
Proof.
  unfold init. rewrite items_by_manufacturer_fold. simpl.
  intro H. apply filter_In in H as [H E]. apply String.eqb_eq in E. auto.
Qed.

Lemma index_keys_compile products :
  patterns_compile products ->
  Forall compiles (dict_keys (manufacturer_index (init products))).
Proof.
  intro H. apply Forall_forall. intros key Hkey.
  pose proof (index_ok_init products) as OK.
  destruct (dict_get (manufacturer_index (init products)) key)
    as [bucket |] eqn:E.
  - destruct (bucket_is_filter OK _ E) as [Hne Hb].
    destruct bucket as [| p bucket]; [congruence |].
    assert (Hp : In p (filter (fun q => String.eqb (Product.manufacturer q) key)
                         (product_list (init products))))
      by (rewrite <- Hb; now left).
    apply filter_In in Hp as [Hp Ek]. apply String.eqb_eq in Ek.
    rewrite product_list_init in Hp.
    unfold patterns_compile in H. rewrite Forall_forall in H.
    rewrite <- Ek. apply (H p Hp).
  - apply dict_get_None in E. contradiction.
Qed.

Lemma items_compile products m :
  patterns_compile products ->
  Forall (fun p => compiles (Matcher.product_regex (keywords p)))
         (items_by_manufacturer (init products) m).
Proof.
  intro H. apply Forall_forall. intros p Hp.
  apply items_in_products in Hp as [Hp _].
  unfold patterns_compile in H. rewrite Forall_forall in H.
  apply (H p Hp).
Qed.

Lemma decide_total products listing :
  patterns_compile products ->
  exists r, decide (init products) listing = Ok r.
Proof.
  intro H. unfold decide.
  pose proof (index_keys_compile H) as HC.
  destruct (manufacturer_match_total listing HC) as [[m |] ->]; simpl;
    [| eauto].
  pose proof (@items_compile products m H) as Hitems.
  destruct (items_by_manufacturer (init products) m); [eauto |].
  apply find_match_total, Hitems.
Qed.

Lemma decide_no_match products listing :
  patterns_compile products ->
  no_match (init products) listing ->
  decide (init products) listing = Ok None.
Proof.
  intros H Hno.
  pose proof (index_keys_compile H) as HC.
  pose proof (keys_distinct (index_ok_init products)) as ND.
  destruct (@decide_total products listing H) as [[p |] E]; [| exact E].
  exfalso. unfold decide in E.
  destruct (Matcher.manufacturer_match _ listing) as [[m |] |] eqn:Em;
    simpl in E; try discriminate.
  apply manufacturer_match_resolves_iff in Em; [| exact ND | exact HC].
  assert (Hunique : forall m', resolves_to
            (dict_keys (manufacturer_index (init products)))
            (Listing.title listing) m' -> m' = m).
  { intros m' (Hin & Hm & _). destruct Em as (_ & _ & Hu). now apply Hu. }
  destruct (items_by_manufacturer (init products) m) as [| q items] eqn:Ei;
    [discriminate |].
  apply find_match_sound in E as [Hin [c Hc]].
  destruct Hno as [Hno | [(m' & Hr & Hempty) | (m' & Hr & Hnone)]].
  - apply Hno. now exists m.
  - apply Hunique in Hr. subst m'. congruence.
  - apply Hunique in Hr. subst m'. apply (Hnone p c); [| exact Hc].
    now rewrite Ei.
Qed.

(** C5, as stated, fails: with a catalogue whose only manufacturer is
    named "(", the title "Canon" resolves to no manufacturer, yet the run
    does not return: resolving the listing ends it with [re.error]. *)
Lemma reconcile_bad_manufacturer_name :
  no_match (init [product_named "X" "("]) (listing_titled "Canon")
  /\ reconcile [product_named "X" "("] [listing_titled "Canon"]
     = Fail re_error.
Proof.
  split; [| reflexivity].
  left. intros (m & [<- | []] & Hm & _). discriminate.
Qed.

(** C7: with the single product named "Canon_PowerShot_A20" of
    manufacturer "Canon" (whatever its other fields) and a listing titled
    "Canon PowerShot A20 Digital Camera" (whatever its other fields), the
    manufacturers of the index are just "Canon", the resolver returns
    "Canon", [find_match] returns the product, and the run maps the title to
    the product. *)
Theorem canon_powershot_a20 model announced_date family
  listing_manufacturer currency price :
  let product :=
    {| Product.product_name := "Canon_PowerShot_A20";
       Product.manufacturer := "Canon";
       Product.model := model;
       Product.announced_date := announced_date;
       Product.family := family |} in
  let listing :=
    {| Listing.title := "Canon PowerShot A20 Digital Camera";
       Listing.manufacturer := listing_manufacturer;
       Listing.currency := currency;
       Listing.price := price |} in
  dict_keys (manufacturer_index (init [product])) = ["Canon"]
  /\ Matcher.manufacturer_match ["Canon"] listing = Ok (Some "Canon")
  /\ Matcher.find_match (items_by_manufacturer (init [product]) "Canon") listing
     = Ok (Some product)
  /\ reconcile [product] [listing]
     = Ok [("Canon PowerShot A20 Digital Camera", product)].
Proof.
  intros product listing. repeat split; vm_compute; reflexivity.
Qed.

End NoMatch.

(** * More on the index *)

Section InventoryMore.

Import Inventory.

Lemma has_key_In keys k : has_key keys k = true <-> In k keys.
Proof.
  unfold has_key. rewrite existsb_exists. split.
  - intros (x & Hx & E). apply String.eqb_eq in E. now subst.
  - intro H. exists k. split; [exact H | apply String.eqb_refl].
Qed.

Lemma has_key_dict_get (V : Type) (d : dict V) k :
  has_key (dict_keys d) k = true <-> dict_get d k <> None.
Proof.
  rewrite has_key_In. split.
  - intros H E. apply dict_get_None in E. contradiction.
  - intro H. destruct (in_dec String.string_dec k (dict_keys d)) as [Hin | Hout];
      [exact Hin |].
    apply dict_get_None in Hout. contradiction.
Qed.

Lemma dict_keys_add inv p :
  dict_keys (manufacturer_index (add_product inv p))
  = if has_key (dict_keys (manufacturer_index inv)) (Product.manufacturer p)
    then dict_keys (manufacturer_index inv)
    else dict_keys (manufacturer_index inv) ++ [Product.manufacturer p].
Proof.
  unfold add_product. cbn [manufacturer_index].
  destruct (has_key _ (Product.manufacturer p)) eqn:H.
  - apply has_key_dict_get in H.
    destruct (dict_get (manufacturer_index inv) (Product.manufacturer p))
      as [b |] eqn:E; [| congruence].
    now rewrite dict_keys_set, E.
  - destruct (dict_get (manufacturer_index inv) (Product.manufacturer p))
      as [b |] eqn:E.
    + assert (H' : has_key (dict_keys (manufacturer_index inv))
                     (Product.manufacturer p) = true)
        by (apply has_key_dict_get; congruence).
      congruence.
    + now rewrite dict_keys_set, E.
Qed.

Lemma filter_filter_absorb keys k (l : list string) :
  has_key keys k = true ->
  filter (fun y => negb (has_key keys y)) (filter (fun y => negb (String.eqb y k)) l)
  = filter (fun y => negb (has_key keys y)) l.
Proof.
  intro H. induction l as [| y l IH]; simpl; [reflexivity |].
  destruct (String.eqb_spec y k) as [-> | N]; simpl.
  - rewrite H. simpl. exact IH.
  - destruct (has_key keys y); simpl; now rewrite IH.
Qed.

Lemma has_key_app keys k y :
  has_key (keys ++ [k]) y = has_key keys y || String.eqb y k.
Proof.
  unfold has_key. rewrite existsb_app. simpl. now rewrite orb_false_r.
Qed.

Lemma filter_not_key_app keys k (l : list string) :
  filter (fun y => negb (has_key (keys ++ [k]) y)) l
  = filter (fun y => negb (has_key keys y))
      (filter (fun y => negb (String.eqb y k)) l).
Proof.
  induction l as [| y l IH]; simpl; [reflexivity |].
  rewrite has_key_app.
  destruct (String.eqb y k); simpl.
  - rewrite orb_true_r. simpl. exact IH.
  - rewrite orb_false_r.
    destruct (has_key keys y); simpl; now rewrite IH.
Qed.

Lemma dict_keys_fold ps : forall inv,
  dict_keys (manufacturer_index (fold_left add_product ps inv))
  = dict_keys (manufacturer_index inv)
    ++ filter (fun k => negb (has_key (dict_keys (manufacturer_index inv)) k))
         (first_occurrences (map Product.manufacturer ps)).
Proof.
  induction ps as [| p ps IH]; intro inv; simpl.
  - now rewrite app_nil_r.
  - rewrite IH, dict_keys_add.
    destruct (has_key (dict_keys (manufacturer_index inv))
                (Product.manufacturer p)) eqn:H; simpl.
    + now rewrite filter_filter_absorb.
    + rewrite <- app_assoc. simpl. now rewrite filter_not_key_app.
Qed.

(** X1: the keys of the index built from a catalogue are the
    manufacturers of its products, each once, in the order in which they
    first appear in the catalogue. *)
Theorem manufacturer_index_keys_in_first_occurrence_order products :
  dict_keys (manufacturer_index (init products))
  = first_occurrences (map Product.manufacturer products).
Proof.
  unfold init. rewrite dict_keys_fold. simpl.
  induction (first_occurrences (map Product.manufacturer products))
    as [| y l IH]; simpl; [reflexivity |]. now rewrite IH.
Qed.

(** X2: whatever the inventory, after [add_product p] the lookup of [p]'s
    manufacturer gives what it gave before followed by [p], the lookup of
    any other manufacturer is unchanged, and [product_list] has [p]
    appended. *)
Theorem add_product_then_lookup inv p :
  items_by_manufacturer (add_product inv p) (Product.manufacturer p)
  = items_by_manufacturer inv (Product.manufacturer p) ++ [p]
  /\ (forall m, m <> Product.manufacturer p ->
                items_by_manufacturer (add_product inv p) m
                = items_by_manufacturer inv m)
  /\ product_list (add_product inv p) = product_list inv ++ [p].
Proof.
  split; [| split].
  - now rewrite items_by_manufacturer_add, String.eqb_refl.
  - intros m N. rewrite items_by_manufacturer_add.
    destruct (String.eqb_spec (Product.manufacturer p) m); congruence.
  - reflexivity.
Qed.

Lemma add_product_then_lookup_witness :
  items_by_manufacturer
    (add_product (init [product_named "A20" "Canon"])
       (product_named "W800" "Sony")) "Canon"
  = items_by_manufacturer (init [product_named "A20" "Canon"]) "Canon".
Proof.
  apply (proj1 (proj2 (add_product_then_lookup
                         (init [product_named "A20" "Canon"])
                         (product_named "W800" "Sony")))).
  discriminate.
Defined.

Lemma concat_buckets_set (d : dict (list Product.t)) k p :
  Permutation
    (List.concat (map snd
       (dict_set d k (match dict_get d k with
                      | Some bucket => bucket ++ [p]
                      | None => [p]
                      end))))
    (p :: List.concat (map snd d)).
Proof.
  induction d as [| [k' b] d IH]; simpl; [reflexivity |].
  destruct (String.eqb k' k); simpl.
  - rewrite <- app_assoc. simpl. symmetry. apply Permutation_middle.
  - rewrite IH. symmetry. apply Permutation_middle.
Qed.

Lemma concat_buckets_fold ps : forall inv,
  Permutation
    (List.concat (map snd (manufacturer_index (fold_left add_product ps inv))))
    (List.concat (map snd (manufacturer_index inv)) ++ ps).
Proof.
  induction ps as [| p ps IH]; intro inv; simpl.
  - now rewrite app_nil_r.
  - rewrite IH. apply Permutation_trans
      with ((p :: List.concat (map snd (manufacturer_index inv))) ++ ps).
    + apply Permutation_app_tail. unfold add_product. cbn [manufacturer_index].
      pose proof (concat_buckets_set (manufacturer_index inv)
                    (Product.manufacturer p) p) as H.
      destruct (dict_get (manufacturer_index inv) (Product.manufacturer p));
        exact H.
    + simpl. apply Permutation_middle.
Qed.

(** X3: the inventory built from a catalogue keeps the catalogue, in its
    order, as [product_list], and its buckets taken together hold the
    products of the catalogue, each as many times as the catalogue has it:
    nothing is lost and nothing is duplicated by the index. *)
Theorem index_partitions_catalogue products :
  product_list (init products) = products
  /\ Permutation (List.concat (map snd (manufacturer_index (init products))))
                 products.
Proof.
  split; [apply product_list_init |].
  unfold init. now rewrite concat_buckets_fold.
Qed.

End InventoryMore.

(** * More on the two matchers *)

Section MatcherMore.

Lemma upper_app a b : upper (a ++ b) = (upper a ++ upper b)%string.
Proof. induction a; simpl; congruence. Qed.

Lemma upper_app_inv a : forall t b,
  upper t = (a ++ b)%string ->
  exists p q, t = (p ++ q)%string /\ upper p = a /\ upper q = b.
Proof.
  induction a as [| x a IH]; intros t b E; simpl in E.
  - exists "", t. auto.
  - destruct t as [| c t]; simpl in E; [discriminate |].
    injection E as Ec E. destruct (IH _ _ E) as (p & q & -> & <- & <-).
    exists (String c p), q. simpl. now rewrite Ec.
Qed.

Lemma upper_char_idem c : upper_char (upper_char c) = upper_char c.
Proof. destruct c as [[] [] [] [] [] [] [] []]; reflexivity. Qed.

Lemma upper_idem s : upper (upper s) = upper s.
Proof. induction s; simpl; [| rewrite upper_char_idem]; congruence. Qed.

Lemma Lang_literal_inv kw : forall s,
  Lang (literal kw) s -> upper s = upper kw.
Proof.
  induction kw as [| a kw IH]; intros s H; simpl in H.
  - apply Lang_Eps_inv in H. now subst.
  - apply Lang_Cat_inv in H as (s1 & s2 & -> & H1 & H2).
    inversion H1; subst. simpl. rewrite (IH _ H2). congruence.
Qed.

Lemma Lang_star_any_inv r g :
  Lang r g -> r = Star Any -> no_newline g = true.
Proof.
  induction 1; intro E; try discriminate; [reflexivity |].
  injection E as ->. inversion H; subst. simpl.
  rewrite (IHLang2 eq_refl), andb_true_r.
  apply negb_true_iff, Ascii.eqb_neq. assumption.
Qed.

(** A plain name matches a title exactly when the title begins with it,
    case apart. *)
Lemma matches_title_plain name t :
  plain name = true ->
  matches_title name t <-> starts_with_ignoring_case name t.
Proof.
  intro Hp. unfold matches_title, re_match.
  rewrite (compile_plain _ Hp). simpl. split.
  - intro H. injection H as H.
    apply prefix_match_spec in H as (p & q & -> & H).
    apply Lang_literal_inv in H. exists (upper q).
    now rewrite upper_app, H.
  - intros [rest E]. apply upper_app_inv in E as (p & q & -> & Ep & _).
    f_equal. apply prefix_match_spec. exists p, q.
    split; [reflexivity |]. apply Lang_literal. exact Ep.
Qed.

Lemma manufacturer_match_Ok_compiles t : forall names acc out,
  for_each
    (fun matched_brands brand =>
       matched <- re_match brand t ;;
       Ok (if matched : bool then matched_brands ++ [brand]
           else matched_brands))
    names acc = Ok out ->
  Forall compiles names.
Proof.
  induction names as [| n names IH]; intros acc out H; simpl in H.
  - constructor.
  - unfold re_match at 1 in H.
    destruct (compile n) as [r |] eqn:E; simpl in H; [| discriminate].
    constructor; [now exists r | exact (IH _ _ H)].
Qed.

Lemma manufacturer_match_returns_filter names listing r :
  Matcher.manufacturer_match names listing = Ok r ->
  r = match filter (fun n => matches_titleb n (Listing.title listing)) names with
      | [brand] => Some brand
      | _ => None
      end.
Proof.
  intro H.
  assert (HC : Forall compiles names).
  { unfold Matcher.manufacturer_match in H.
    destruct (for_each _ names []) as [out |] eqn:E; [| discriminate].
    exact (manufacturer_match_Ok_compiles _ _ _ E). }
  rewrite (manufacturer_match_filter listing HC) in H. now injection H.
Qed.

Lemma filter_singleton_count (f : string -> bool) : forall names m,
  filter f names = [m] ->
  count_occ String.string_dec names m = 1
  /\ In m names /\ f m = true
  /\ forall n, In n names -> f n = true -> n = m.
Proof.
  intros names m E.
  assert (Hm : In m (filter f names)) by (rewrite E; now left).
  apply filter_In in Hm as [Hin Hf].
  assert (Hu : forall n, In n names -> f n = true -> n = m).
  { intros n Hn Hfn. assert (Hn' : In n (filter f names)) by now apply filter_In.
    rewrite E in Hn'. destruct Hn' as [-> | []]. reflexivity. }
  repeat split; try assumption.
  clear Hin Hu. revert E. induction names as [| x names IH]; simpl;
    [discriminate |].
  destruct (String.string_dec x m) as [-> | N].
  - rewrite Hf. intro E. injection E as E. f_equal.
    apply count_occ_not_In. intro Hin.
    assert (Hm : In m (filter f names)) by now apply filter_In.
    rewrite E in Hm. destruct Hm.
  - destruct (f x); [| exact IH].
    intro E. injection E as E _. congruence.
Qed.

(** X4: for any list of names, duplicates and names that are not patterns
    included, whenever [manufacturer_match] returns a name, that name is in
    the list exactly once, it matches the title, and no other name of the
    list matches it. *)
Theorem manufacturer_match_returns_single_match names listing m :
  Matcher.manufacturer_match names listing = Ok (Some m) ->
  count_occ String.string_dec names m = 1
  /\ In m names
  /\ matches_title m (Listing.title listing)
  /\ (forall n, In n names -> matches_title n (Listing.title listing) -> n = m).
Proof.
  intro H. apply manufacturer_match_returns_filter in H.
  destruct (filter _ names) as [| b [| b' l]] eqn:E; try discriminate.
  injection H as H. subst b.
  destruct (filter_singleton_count _ _ E) as (Hc & Hin & Hf & Hu).
  repeat split; try assumption.
  - now apply matches_titleb_true.
  - intros n Hn Hm. apply Hu; [exact Hn | now apply matches_titleb_true].
Qed.

Lemma manufacturer_match_returns_single_match_witness :
  Matcher.manufacturer_match ["Sony"; "Canon"] (listing_titled "canon EOS 5D")
  = Ok (Some "Canon")
  /\ count_occ String.string_dec ["Sony"; "Canon"] "Canon" = 1
  /\ matches_title "Canon" "canon EOS 5D".
Proof.
  destruct (manufacturer_match_returns_single_match
              ["Sony"; "Canon"] (listing_titled "canon EOS 5D") eq_refl)
    as (Hc & _ & Hm & _).
  split; [reflexivity | split; assumption].
Defined.

(** X5: on ASCII text, for a duplicate-free list of names without special
    characters, [manufacturer_match] returns [m] exactly when [m] is the one
    name of the list the title begins with, letters compared without
    case. *)
Theorem manufacturer_match_plain_names names listing m :
  NoDup names ->
  Forall (fun n => plain n = true) names ->
  Forall (fun n => is_ascii n = true) names ->
  is_ascii (Listing.title listing) = true ->
  Matcher.manufacturer_match names listing = Ok (Some m)
  <-> (In m names
       /\ starts_with_ignoring_case m (Listing.title listing)
       /\ forall n, In n names ->
                    starts_with_ignoring_case n (Listing.title listing) ->
                    n = m).
Proof.
  intros ND HP _ _.
  assert (HC : Forall compiles names).
  { eapply Forall_impl; [| exact HP]. intros n Hn.
    exists (literal n). now apply compile_plain. }
  rewrite (manufacturer_match_resolves_iff listing m ND HC).
  unfold resolves_to. rewrite Forall_forall in HP. split.
  - intros (Hin & Hm & Hu). split; [exact Hin |]. split.
    + apply matches_title_plain; auto.
    + intros n Hn Hs. apply Hu; [exact Hn |].
      apply matches_title_plain; auto.
  - intros (Hin & Hm & Hu). split; [exact Hin |]. split.
    + apply matches_title_plain; auto.
    + intros n Hn Hs. apply Hu; [exact Hn |].
      apply matches_title_plain in Hs; auto.
Qed.

Lemma manufacturer_match_plain_names_witness :
  Matcher.manufacturer_match ["Sony"; "Canon"] (listing_titled "CANON eos")
  = Ok (Some "Canon").
Proof.
  apply (manufacturer_match_plain_names
           (names := ["Sony"; "Canon"]) (listing_titled "CANON eos") "Canon").
  - apply NoDup_two_names. discriminate.
  - repeat constructor.
  - repeat constructor.
  - reflexivity.
  - split; [simpl; auto |]. split; [exists " EOS"; reflexivity |].
    intros n [<- | [<- | []]] [rest E]; [discriminate | reflexivity].
Defined.

(** X6: a name that begins with another name of the list, case apart, is
    never returned: every title it matches is matched by the shorter name
    too, so the answer is none (as for "SonyEricsson" beside "Sony"). *)
Theorem manufacturer_match_longer_name_shadowed names short long listing :
  In short names -> In long names -> short <> long ->
  plain short = true -> plain long = true ->
  starts_with_ignoring_case short long ->
  Matcher.manufacturer_match names listing <> Ok (Some long).
Proof.
  intros Hs Hl N Ps Pl [x Ex] H.
  apply manufacturer_match_returns_filter in H.
  destruct (filter _ names) as [| b [| b' l]] eqn:E; try discriminate.
  injection H as H. subst b.
  destruct (filter_singleton_count _ _ E) as (_ & _ & Hf & Hu).
  apply N, Hu; [exact Hs |].
  apply matches_titleb_true, matches_title_plain; [exact Ps |].
  apply matches_titleb_true, matches_title_plain in Hf; [| exact Pl].
  destruct Hf as [rest Er]. exists (x ++ rest)%string.
  rewrite Er, Ex. apply sapp_assoc.
Qed.

Lemma manufacturer_match_longer_name_shadowed_witness :
  Matcher.manufacturer_match ["Sony"; "SonyEricsson"]
    (listing_titled "SonyEricsson W800") = Ok None
  /\ Matcher.manufacturer_match ["Sony"; "SonyEricsson"]
       (listing_titled "SonyEricsson W800") <> Ok (Some "SonyEricsson").
Proof.
  split; [reflexivity |].
  apply (@manufacturer_match_longer_name_shadowed
           ["Sony"; "SonyEricsson"] "Sony" "SonyEricsson"
           (listing_titled "SonyEricsson W800")).
  - simpl. auto.
  - simpl. auto.
  - discriminate.
  - reflexivity.
  - reflexivity.
  - exists "ERICSSON". reflexivity.
Defined.

(** ** The product score *)

Lemma Lang_keyword_regex_starts kws : forall p q,
  Lang (keyword_regex kws) p -> starts_in_order kws (p ++ q).
Proof.
  induction kws as [| kw kws IH]; intros p q H; simpl in *; [exact I |].
  apply Lang_Cat_inv in H as (s1 & s2 & -> & H1 & H2).
  apply Lang_Cat_inv in H1 as (found & e & -> & Hf & He).
  apply Lang_Eps_inv in He. subst e.
  apply Lang_Cat_inv in H2 as (gap & rest & -> & Hg & Hr).
  exists found, gap, (rest ++ q)%string. repeat split.
  - rewrite sapp_nil_r. now rewrite !sapp_assoc.
  - now apply Lang_literal_inv.
  - exact (Lang_star_any_inv Hg eq_refl).
  - apply IH. exact Hr.
Qed.

(** X7: on ASCII text, a product whose name has no special character
    always gets a score, and the score says matched only if the title holds
    the keywords from its very start: the first keyword first, each next one
    after the previous, case apart, with no newline between two keywords. *)
Theorem product_name_match_only_if_starts_in_order product listing :
  plain (Product.product_name product) = true ->
  is_ascii (Product.product_name product) = true ->
  is_ascii (Listing.title listing) = true ->
  exists matched,
    Matcher.product_name_match product listing = Ok (matched, 80%Z)
    /\ (matched = true ->
        starts_in_order (keywords product) (Listing.title listing)).
Proof.
  intros Hp _ _. unfold Matcher.product_name_match. fold (keywords product).
  rewrite (compile_product_regex (plain_keywords _ Hp)). simpl.
  eexists. split; [reflexivity |].
  intro H. apply prefix_match_spec in H as (p & q & -> & H).
  now apply Lang_keyword_regex_starts.
Qed.

Lemma product_name_match_only_if_starts_in_order_witness :
  exists matched,
    Matcher.product_name_match
      (product_named "Canon_A20" "Canon") (listing_titled "Canon EOS A20 kit")
    = Ok (matched, 80%Z)
    /\ (matched = true ->
        starts_in_order ["CANON"; "A20"] "Canon EOS A20 kit").
Proof.
  apply (product_name_match_only_if_starts_in_order
           (product_named "Canon_A20" "Canon")
           (listing_titled "Canon EOS A20 kit"));
    reflexivity.
Defined.

Lemma prefix_match_app r t u :
  prefix_match r t = true -> prefix_match r (t ++ u) = true.
Proof.
  rewrite !prefix_match_spec. intros (p & q & -> & H).
  exists p, (q ++ u)%string. split; [apply sapp_assoc | exact H].
Qed.

(** X8: for names without special characters, text added at the end of
    a title never turns a match into a non-match: a product with such a name
    that is scored matched stays matched, and such a manufacturer name that
    matched still matches. *)
Theorem longer_title_keeps_matches listing more :
  (forall product confidence,
     plain (Product.product_name product) = true ->
     Matcher.product_name_match product listing = Ok (true, confidence) ->
     Matcher.product_name_match product
       (with_title listing (Listing.title listing ++ more))
     = Ok (true, confidence))
  /\ (forall name,
        plain name = true ->
        matches_title name (Listing.title listing) ->
        matches_title name (Listing.title listing ++ more)).
Proof.
  split.
  - intros product confidence _. unfold Matcher.product_name_match.
    destruct (compile _) as [r |]; simpl; [| discriminate].
    intro H. injection H as H <-. simpl.
    now rewrite (prefix_match_app _ _ more H).
  - intros name _. unfold matches_title, re_match.
    destruct (compile name) as [r |]; simpl; [| discriminate].
    intro H. injection H as H. now rewrite (prefix_match_app _ _ more H).
Qed.

Lemma longer_title_keeps_matches_witness :
  Matcher.product_name_match (product_named "Canon_A20" "Canon")
    (with_title (listing_titled "Canon A20") ("Canon A20" ++ " with case"))
  = Ok (true, 80%Z)
  /\ matches_title "Canon" ("Canon A20" ++ " with case").
Proof.
  split.
  - apply (proj1 (longer_title_keeps_matches
                    (listing_titled "Canon A20") " with case")
             (product_named "Canon_A20" "Canon") 80%Z);
      reflexivity.
  - apply (proj2 (longer_title_keeps_matches
                    (listing_titled "Canon A20") " with case") "Canon");
      reflexivity.
Defined.

Lemma for_each_ext (A S : Type) (body1 body2 : S -> A -> result S) :
  (forall st x, body1 st x = body2 st x) ->
  forall xs st, for_each body1 xs st = for_each body2 xs st.
Proof.
  intro H. induction xs as [| x xs IH]; intro st; simpl; [reflexivity |].
  rewrite H. destruct (body2 st x); simpl; [apply IH | reflexivity].
Qed.

Lemma newline_upper_char c :
  Ascii.eqb (upper_char c) newline = Ascii.eqb c newline.
Proof. destruct c as [[] [] [] [] [] [] [] []]; reflexivity. Qed.

Lemma deriv_upper_char r : forall c c',
  upper_char c = upper_char c' -> deriv c r = deriv c' r.
Proof.
  induction r; intros x x' E; simpl; try reflexivity.
  - now rewrite E.
  - now rewrite <- (newline_upper_char x), E, newline_upper_char.
  - now rewrite (IHr1 _ _ E), (IHr2 _ _ E).
  - now rewrite (IHr1 _ _ E), (IHr2 _ _ E).
  - now rewrite (IHr _ _ E).
Qed.

Lemma prefix_match_upper s1 : forall s2 r,
  upper s1 = upper s2 -> prefix_match r s1 = prefix_match r s2.
Proof.
  induction s1 as [| c s1 IH]; intros [| c' s2] r E; simpl in *;
    try discriminate; [reflexivity |].
  injection E as Ec E. now rewrite (deriv_upper_char r _ _ Ec), (IH _ _ E).
Qed.

(** X9: with names that have no special character, the three matchers
    read the title without regard to letter case: two listings whose titles
    differ only in the case of the letters [a] to [z] get the same answer
    from [manufacturer_match] for every list of such manufacturer names, the
    same score for every product with such a name, and the same result from
    [find_match] for every list of such products. *)
Theorem matchers_ignore_title_case l1 l2 :
  upper (Listing.title l1) = upper (Listing.title l2) ->
  (forall names,
     Forall (fun n => plain n = true) names ->
     Matcher.manufacturer_match names l1 = Matcher.manufacturer_match names l2)
  /\ (forall product,
        plain (Product.product_name product) = true ->
        Matcher.product_name_match product l1
        = Matcher.product_name_match product l2)
  /\ (forall products,
        Forall (fun p => plain (Product.product_name p) = true) products ->
        Matcher.find_match products l1 = Matcher.find_match products l2).
Proof.
  intro E.
  assert (Hre : forall pattern,
            re_match pattern (Listing.title l1)
            = re_match pattern (Listing.title l2)).
  { intro pattern. unfold re_match.
    destruct (compile pattern); simpl; [| reflexivity].
    now rewrite (prefix_match_upper _ _ a E). }
  assert (Hpn : forall product,
            Matcher.product_name_match product l1
            = Matcher.product_name_match product l2).
  { intro product. unfold Matcher.product_name_match.
    destruct (compile _); simpl; [| reflexivity].
    now rewrite (prefix_match_upper _ _ a E). }
  split; [| split; [intros product _; apply Hpn |]].
  - intros names _. unfold Matcher.manufacturer_match. f_equal.
    apply for_each_ext. intros acc n. now rewrite Hre.
  - intros products _. unfold Matcher.find_match. f_equal.
    apply for_each_ext. intros acc p. now rewrite Hpn.
Qed.

Lemma matchers_ignore_title_case_witness :
  Matcher.find_match [product_named "Canon_A20" "Canon"]
    (listing_titled "CANON a20")
  = Matcher.find_match [product_named "Canon_A20" "Canon"]
      (listing_titled "canon A20").
Proof.
  apply (proj2 (proj2 (matchers_ignore_title_case
                         (listing_titled "CANON a20")
                         (listing_titled "canon A20") eq_refl))).
  repeat constructor.
Defined.

(** ** Names up to case and separators *)

Lemma is_sep_upper_char c : is_sep (upper_char c) = is_sep c.
Proof. destruct c as [[] [] [] [] [] [] [] []]; reflexivity. Qed.

Lemma split_sep_upper s : split_sep (upper s) = map upper (split_sep s).
Proof.
  induction s as [| c s IH]; simpl; [reflexivity |].
  rewrite is_sep_upper_char, IH.
  destruct (is_sep c); [reflexivity |].
  destruct (split_sep s); reflexivity.
Qed.

Lemma split_sep_unify_separators s :
  split_sep (unify_separators s) = split_sep s.
Proof.
  induction s as [| c s IH]; simpl; [reflexivity |].
  destruct (is_sep c) eqn:E; simpl; rewrite IH; [reflexivity |].
  now rewrite E.
Qed.

(** X10: the score depends on the product's name only up to the case of
    its letters and the choice between ['_'] and ['-'] as separator: two
    products whose names agree once upper-cased and written with one
    separator get the same score against every listing. *)
Theorem product_name_match_ignores_case_and_separator p q listing :
  unify_separators (upper (Product.product_name p))
  = unify_separators (upper (Product.product_name q)) ->
  Matcher.product_name_match p listing = Matcher.product_name_match q listing.
Proof.
  intro E. unfold Matcher.product_name_match.
  rewrite <- !split_sep_upper.
  rewrite <- (split_sep_unify_separators (upper (Product.product_name p))).
  rewrite <- (split_sep_unify_separators (upper (Product.product_name q))).
  now rewrite E.
Qed.

Lemma product_name_match_ignores_case_and_separator_witness :
  Matcher.product_name_match (product_named "Cyber-shot_DSC-W310" "Sony")
    (listing_titled "Cyber shot DSC W310")
  = Matcher.product_name_match (product_named "cyber_Shot-dsc_w310" "Sony")
      (listing_titled "Cyber shot DSC W310").
Proof.
  apply (product_name_match_ignores_case_and_separator
           (product_named "Cyber-shot_DSC-W310" "Sony")
           (product_named "cyber_Shot-dsc_w310" "Sony")
           (listing_titled "Cyber shot DSC W310")).
  reflexivity.
Defined.

(** ** A name and the names that extend it *)

Lemma split_sep_nonempty s : split_sep s <> [].
Proof.
  destruct s as [| c s]; simpl; [discriminate |].
  destruct (is_sep c); [discriminate |].
  destruct (split_sep s); discriminate.
Qed.

Lemma split_sep_app_sep a c b :
  is_sep c = true ->
  split_sep (a ++ String c b) = split_sep a ++ split_sep b.
Proof.
  intro Hc. induction a as [| x a IH]; simpl.
  - now rewrite Hc.
  - rewrite IH. destruct (is_sep x); [reflexivity |].
    pose proof (split_sep_nonempty a) as N.
    destruct (split_sep a); [congruence | reflexivity].
Qed.

Lemma plain_app a b : plain (a ++ b) = plain a && plain b.
Proof.
  induction a as [| x a IH]; simpl; [reflexivity |].
  now rewrite IH, andb_assoc.
Qed.

Lemma starts_in_order_app k1 k2 : forall t,
  starts_in_order (k1 ++ k2) t -> starts_in_order k1 t.
Proof.
  induction k1 as [| kw k1 IH]; intros t H; simpl in *; [exact I |].
  destruct H as (found & gap & rest & E & Ef & Eg & H).
  exists found, gap, rest. repeat split; auto.
Qed.

Lemma product_name_match_plain product listing :
  plain (Product.product_name product) = true ->
  Matcher.product_name_match product listing
  = Ok (prefix_match (keyword_regex (keywords product))
          (Listing.title listing), 80%Z).
Proof.
  intro Hp. unfold Matcher.product_name_match. fold (keywords product).
  now rewrite (compile_product_regex (plain_keywords _ Hp)).
Qed.

(** X11: if a product's name is another product's name followed by a
    separator and more keywords (as "Sony_A_Pro" after "Sony_A"), and it has
    no special character, then every listing that matches the longer name
    matches the shorter one too. *)
Theorem product_name_match_shorter_name_matches p q c more listing confidence :
  is_sep c = true ->
  Product.product_name q = (Product.product_name p ++ String c more)%string ->
  plain (Product.product_name q) = true ->
  Matcher.product_name_match q listing = Ok (true, confidence) ->
  Matcher.product_name_match p listing = Ok (true, 80%Z).
Proof.
  intros Hc En Hq H.
  assert (Hp : plain (Product.product_name p) = true).
  { rewrite En, plain_app in Hq. now apply andb_true_iff in Hq as [Hq _]. }
  rewrite (product_name_match_plain q listing Hq) in H.
  injection H as H _.
  apply prefix_match_spec in H as (s1 & s2 & Et & H).
  apply (Lang_keyword_regex_starts _ s2) in H. rewrite <- Et in H.
  apply product_name_match_true; [now apply plain_keywords |].
  unfold keywords in *. rewrite En, split_sep_app_sep, map_app in H by exact Hc.
  now apply starts_in_order_app in H.
Qed.

Lemma product_name_match_shorter_name_matches_witness :
  Matcher.product_name_match (product_named "Sony_A" "Sony")
    (listing_titled "Sony A Pro kit") = Ok (true, 80%Z).
Proof.
  apply (@product_name_match_shorter_name_matches
           (product_named "Sony_A" "Sony") (product_named "Sony_A_Pro" "Sony")
           "_"%char "Pro" (listing_titled "Sony A Pro kit") 80%Z);
    reflexivity.
Defined.

End MatcherMore.

(** * More on the best candidate *)

Section FindMatchMore.

Lemma collect_matched_filter listing : forall candidates collected,
  collect_matched candidates listing = Ok collected ->
  collected = filter (scored_matched listing) candidates
  /\ Forall (fun p => exists b c,
               Matcher.product_name_match p listing = Ok (b, c)) candidates.
Proof.
  induction candidates as [| p candidates IH]; intros collected E; simpl in E.
  - injection E as <-. split; constructor.
  - destruct (Matcher.product_name_match p listing) as [[b c] |] eqn:Ep;
      simpl in E; [| discriminate].
    destruct (collect_matched candidates listing) as [rest |];
      simpl in E; [| discriminate].
    injection E as <-. destruct (IH _ eq_refl) as [-> HF].
    split; [| constructor; eauto].
    cbn [filter]. unfold scored_matched at 3. rewrite Ep. reflexivity.
Qed.

Lemma collect_matched_of_scores listing : forall candidates,
  Forall (fun p => exists b c,
            Matcher.product_name_match p listing = Ok (b, c)) candidates ->
  collect_matched candidates listing
  = Ok (filter (scored_matched listing) candidates).
Proof.
  induction 1 as [| p candidates (b & c & Ep) _ IH]; simpl; [reflexivity |].
  unfold scored_matched at 1. rewrite Ep, IH. reflexivity.
Qed.

Lemma last_item_app (A : Type) (l : list A) x : last_item (l ++ [x]) = Some x.
Proof.
  induction l as [| y l IH]; simpl; [reflexivity |].
  rewrite IH. destruct l; reflexivity.
Qed.

Lemma last_item_None (A : Type) (l : list A) : last_item l = None -> l = [].
Proof.
  induction l as [| y [| z l] IH]; simpl; intro E;
    [reflexivity | discriminate |].
  apply IH in E. discriminate.
Qed.

Lemma string_leb_refl s : String.leb s s = true.
Proof. destruct (String.leb_total s s); assumption. Qed.

Lemma last_item_greatest (A : Type) (key : A -> string) (l : list A) x :
  StronglySorted (key_le key) l -> last_item l = Some x ->
  forall y, In y l -> key_le key y x.
Proof.
  induction 1 as [| z l Hl IH Hz]; intros E y Hy; [destruct Hy |].
  destruct l as [| z' l'].
  - simpl in E. injection E as <-. destruct Hy as [<- | []].
    apply string_leb_refl.
  - change (last_item (z' :: l') = Some x) in E.
    destruct Hy as [<- | Hy]; [| now apply IH].
    rewrite Forall_forall in Hz. apply Hz. now apply last_item_In.
Qed.

Lemma StronglySorted_filter (A : Type) (R : A -> A -> Prop) f (l : list A) :
  StronglySorted R l -> StronglySorted R (filter f l).
Proof.
  induction 1 as [| x l Hl IH Hx]; simpl; [constructor |].
  destruct (f x); [| exact IH].
  constructor; [exact IH |].
  rewrite Forall_forall in *. intros y Hy. apply filter_In in Hy as [Hy _].
  now apply Hx.
Qed.

Lemma find_match_filter products listing r :
  Matcher.find_match products listing = Ok r ->
  r = last_item (filter (scored_matched listing)
                   (sorted Product.product_name products))
  /\ Forall (fun p => exists b c,
               Matcher.product_name_match p listing = Ok (b, c)) products.
Proof.
  rewrite find_match_find_best. unfold find_best.
  destruct (collect_matched _ listing) as [collected |] eqn:E; simpl;
    [| discriminate].
  intro H. injection H as <-.
  destruct (collect_matched_filter _ _ E) as [-> HF]. split; [reflexivity |].
  eapply Permutation_Forall; [| exact HF]. apply sorted_perm.
Qed.

(** X12: the product [find_match] returns is a candidate scored matched
    whose name is the greatest among the candidates scored matched: no
    matching candidate has a name that sorts after it. *)
Theorem find_match_returns_greatest_name products listing p :
  Matcher.find_match products listing = Ok (Some p) ->
  In p products
  /\ (exists c, Matcher.product_name_match p listing = Ok (true, c))
  /\ forall q c,
       In q products ->
       Matcher.product_name_match q listing = Ok (true, c) ->
       name_le q p.
Proof.
  intro H. destruct (find_match_sound _ _ H) as [Hin Hm].
  split; [exact Hin | split; [exact Hm |]].
  apply find_match_filter in H as [H _]. symmetry in H.
  intros q c Hq Eq.
  apply (last_item_greatest (key := Product.product_name)
           (l := filter (scored_matched listing)
                   (sorted Product.product_name products))).
  - apply StronglySorted_filter, sorted_sorted.
  - exact H.
  - apply filter_In. split.
    + apply (Permutation_in _ (Permutation_sym
                                 (sorted_perm Product.product_name products))).
      exact Hq.
    + unfold scored_matched. now rewrite Eq.
Qed.

Lemma find_match_returns_greatest_name_witness :
  Matcher.find_match
    [product_named "Sony_A_Pro" "Sony"; product_named "Sony_A" "Sony"]
    (listing_titled "Sony A Pro kit")
  = Ok (Some (product_named "Sony_A_Pro" "Sony"))
  /\ name_le (product_named "Sony_A" "Sony")
             (product_named "Sony_A_Pro" "Sony").
Proof.
  split; [reflexivity |].
  destruct (@find_match_returns_greatest_name
              [product_named "Sony_A_Pro" "Sony"; product_named "Sony_A" "Sony"]
              (listing_titled "Sony A Pro kit")
              (product_named "Sony_A_Pro" "Sony") eq_refl) as (_ & _ & H).
  apply (H (product_named "Sony_A" "Sony") 80%Z); [simpl; auto | reflexivity].
Defined.

(** X13: [find_match] returns none exactly when every candidate gets a
    score and every score says not matched; in particular it returns none on
    an empty candidate list. *)
Theorem find_match_none_iff products listing :
  Matcher.find_match products listing = Ok None
  <-> Forall (fun p => exists c,
                Matcher.product_name_match p listing = Ok (false, c))
             products.
Proof.
  split.
  - intro H. apply find_match_filter in H as [H HF]. symmetry in H.
    apply last_item_None in H.
    rewrite Forall_forall in *. intros p Hp.
    destruct (HF p Hp) as (b & c & E). exists c.
    destruct b; [| exact E]. exfalso.
    assert (Hin : In p (filter (scored_matched listing)
                          (sorted Product.product_name products))).
    { apply filter_In. split.
      - apply (Permutation_in _ (Permutation_sym
                                   (sorted_perm Product.product_name products))).
        exact Hp.
      - unfold scored_matched. now rewrite E. }
    rewrite H in Hin. destruct Hin.
  - intro HF. rewrite find_match_find_best. unfold find_best.
    assert (HS : Forall (fun p => exists c,
                   Matcher.product_name_match p listing = Ok (false, c))
                   (sorted Product.product_name products)).
    { eapply Permutation_Forall; [| exact HF].
      apply Permutation_sym, sorted_perm. }
    rewrite collect_matched_of_scores.
    + simpl. f_equal.
      induction HS as [| p l (c & E) _ IH]; simpl; [reflexivity |].
      unfold scored_matched at 1. rewrite E. exact IH.
    + eapply Forall_impl; [| exact HS]. intros p (c & E). eauto.
Qed.

Lemma insert_sorted_before_last (A : Type) (key : A -> string) x p (l : list A) :
  String.leb (key x) (key p) = true ->
  insert_sorted key x (l ++ [p]) = insert_sorted key x l ++ [p].
Proof.
  intro H. induction l as [| y l IH]; simpl.
  - now rewrite H.
  - destruct (String.leb (key x) (key y)); [reflexivity |]. now rewrite IH.
Qed.

Lemma sorted_keeps_last (A : Type) (key : A -> string) p (l : list A) :
  Forall (fun x => String.leb (key x) (key p) = true) l ->
  sorted key (l ++ [p]) = sorted key l ++ [p].
Proof.
  induction 1 as [| x l Hx _ IH]; simpl; [reflexivity |].
  rewrite IH. now apply insert_sorted_before_last.
Qed.

(** X14: ties go to the candidate listed last: if the last candidate of the
    list is scored matched, every other candidate gets a score, and none has
    a name that sorts strictly after its name, then [find_match] returns
    that last candidate, also when others have the same name. *)
Theorem find_match_last_candidate_wins_ties products p listing c :
  Matcher.product_name_match p listing = Ok (true, c) ->
  Forall (fun q => name_le q p
                   /\ exists b c',
                        Matcher.product_name_match q listing = Ok (b, c'))
         products ->
  Matcher.find_match (products ++ [p]) listing = Ok (Some p).
Proof.
  intros Ep HF. rewrite find_match_find_best. unfold find_best.
  rewrite sorted_keeps_last.
  - rewrite collect_matched_of_scores.
    + simpl. rewrite filter_app. simpl.
      unfold scored_matched at 2. rewrite Ep.
      now rewrite last_item_app.
    + apply Forall_app. split; [| repeat constructor; eauto].
      eapply Permutation_Forall; [apply Permutation_sym, sorted_perm |].
      eapply Forall_impl; [| exact HF]. intros q [_ H]. exact H.
  - eapply Forall_impl; [| exact HF]. intros q [H _]. exact H.
Qed.

Lemma find_match_last_candidate_wins_ties_witness :
  Matcher.find_match
    ([product_named "Sony_A" "Sony"] ++ [product_named "Sony_A" "Sony Corp"])
    (listing_titled "Sony A Pro kit")
  = Ok (Some (product_named "Sony_A" "Sony Corp")).
Proof.
  apply (@find_match_last_candidate_wins_ties
           [product_named "Sony_A" "Sony"] (product_named "Sony_A" "Sony Corp")
           (listing_titled "Sony A Pro kit") 80%Z).
  - reflexivity.
  - repeat constructor. exists true, 80%Z. reflexivity.
Defined.

Lemma key_injective (A : Type) (key : A -> string) (l : list A) x y :
  NoDup (map key l) -> In x l -> In y l -> key x = key y -> x = y.
Proof.
  induction l as [| z l IH]; simpl; intros ND Hx Hy E; [destruct Hx |].
  inversion ND as [| ? ? Hz ND']; subst.
  destruct Hx as [-> | Hx], Hy as [-> | Hy]; auto.
  - exfalso. apply Hz. rewrite E. now apply in_map.
  - exfalso. apply Hz. rewrite <- E. now apply in_map.
Qed.

Lemma sorted_lists_equal (A : Type) (key : A -> string) : forall a b : list A,
  StronglySorted (key_le key) a -> StronglySorted (key_le key) b ->
  Permutation a b -> NoDup (map key a) -> a = b.
Proof.
  induction a as [| x a IH]; intros b Sa Sb P ND.
  - apply Permutation_nil in P. now subst.
  - destruct b as [| y b];
      [apply Permutation_sym, Permutation_nil in P; discriminate |].
    inversion Sa as [| ? ? Sa' Fa]; subst.
    inversion Sb as [| ? ? Sb' Fb]; subst.
    assert (E : x = y).
    { assert (Hx : In x (y :: b))
        by (apply (Permutation_in _ P); now left).
      assert (Hy : In y (x :: a))
        by (apply (Permutation_in _ (Permutation_sym P)); now left).
      destruct Hx as [-> | Hx]; [reflexivity |].
      destruct Hy as [-> | Hy]; [reflexivity |].
      rewrite Forall_forall in Fa, Fb.
      apply (key_injective key (x :: a) x y ND);
        [now left | now right |].
      apply String.leb_antisym; [apply Fa, Hy | apply Fb, Hx]. }
    subst y. f_equal. apply IH; try assumption.
    + now apply Permutation_cons_inv in P.
    + now inversion ND.
Qed.

(** X15: when the candidates have pairwise different names, the order in
    which they are listed does not matter: [find_match] gives the same
    result on any rearrangement of the candidate list. *)
Theorem find_match_order_of_candidates products1 products2 listing :
  Permutation products1 products2 ->
  NoDup (map Product.product_name products1) ->
  Matcher.find_match products1 listing = Matcher.find_match products2 listing.
Proof.
  intros P ND. rewrite !find_match_find_best. unfold find_best.
  replace (sorted Product.product_name products2)
    with (sorted Product.product_name products1); [reflexivity |].
  apply (sorted_lists_equal (key := Product.product_name)).
  - apply sorted_sorted.
  - apply sorted_sorted.
  - rewrite !sorted_perm. exact P.
  - eapply Permutation_NoDup; [| exact ND].
    apply Permutation_map, Permutation_sym, sorted_perm.
Qed.

Lemma find_match_order_of_candidates_witness :
  Matcher.find_match
    [product_named "Sony_A" "Sony"; product_named "Sony_A_Pro" "Sony"]
    (listing_titled "Sony A Pro kit")
  = Matcher.find_match
      [product_named "Sony_A_Pro" "Sony"; product_named "Sony_A" "Sony"]
      (listing_titled "Sony A Pro kit").
Proof.
  apply (@find_match_order_of_candidates
           [product_named "Sony_A" "Sony"; product_named "Sony_A_Pro" "Sony"]
           [product_named "Sony_A_Pro" "Sony"; product_named "Sony_A" "Sony"]
           (listing_titled "Sony A Pro kit")).
  - apply perm_swap.
  - repeat constructor; simpl; intuition discriminate.
Defined.

End FindMatchMore.

(** * More on the reconciliation loop *)

Section ReconcileMore.

Import Inventory.

Lemma decide_Some inventory listing item :
  decide inventory listing = Ok (Some item)
  <-> exists m,
        Matcher.manufacturer_match
          (dict_keys (manufacturer_index inventory)) listing = Ok (Some m)
        /\ Matcher.find_match (items_by_manufacturer inventory m) listing
           = Ok (Some item).
Proof.
  unfold decide. split.
  - destruct (Matcher.manufacturer_match _ listing) as [[m |] |]; simpl;
      try discriminate.
    destruct (items_by_manufacturer inventory m) eqn:E; [discriminate |].
    intro H. exists m. split; [reflexivity | now rewrite E].
  - intros (m & -> & H). simpl.
    destruct (items_by_manufacturer inventory m) eqn:E; [| exact H].
    discriminate H.
Qed.

Lemma reconcile_entry_iff products listings out t item :
  reconcile products listings = Ok out ->
  dict_get out t = Some item
  <-> exists l, In l listings /\ Listing.title l = t
                /\ decide (init products) l = Ok (Some item).
Proof.
  unfold reconcile. intro Hrun. split.
  - intro H. destruct (@reconcile_loop_entry _ _ _ _ _ _ Hrun H)
      as [Hempty | Hl]; [discriminate | exact Hl].
  - intros (l & Hin & <- & Hd). eapply reconcile_loop_sets; eassumption.
Qed.

(** X16: every entry of the output mapping is justified: its key is the
    title of a processed listing, and its value is a product of the
    catalogue whose manufacturer is the one that listing's title resolves
    to among the manufacturers of the catalogue, and whose score against the
    listing says matched. *)
Theorem reconcile_entries_are_matches products listings out t item :
  reconcile products listings = Ok out ->
  dict_get out t = Some item ->
  exists l,
    In l listings /\ Listing.title l = t
    /\ In item products
    /\ Matcher.manufacturer_match
         (dict_keys (manufacturer_index (init products))) l
       = Ok (Some (Product.manufacturer item))
    /\ exists c, Matcher.product_name_match item l = Ok (true, c).
Proof.
  intros Hrun H.
  apply (reconcile_entry_iff _ _ t item Hrun) in H as (l & Hin & Et & Hd).
  apply decide_Some in Hd as (m & Hm & Hf).
  apply find_match_sound in Hf as [Hitem Hscore].
  apply items_in_products in Hitem as [Hitem Em].
  exists l. rewrite Em. auto.
Qed.

Lemma reconcile_entries_are_matches_witness :
  exists l,
    In l [listing_titled "Canon A20 kit"; listing_titled "Nikon D90"]
    /\ Listing.title l = "Canon A20 kit"
    /\ In (product_named "Canon_A20" "Canon")
          [product_named "Canon_A20" "Canon"]
    /\ Matcher.manufacturer_match
         (dict_keys (manufacturer_index
                       (init [product_named "Canon_A20" "Canon"]))) l
       = Ok (Some "Canon")
    /\ exists c,
         Matcher.product_name_match (product_named "Canon_A20" "Canon") l
         = Ok (true, c).
Proof.
  apply (@reconcile_entries_are_matches
           [product_named "Canon_A20" "Canon"]
           [listing_titled "Canon A20 kit"; listing_titled "Nikon D90"]
           [("Canon A20 kit", product_named "Canon_A20" "Canon")]
           "Canon A20 kit" (product_named "Canon_A20" "Canon"));
    reflexivity.
Defined.

(** X17: no match is lost or overwritten by another product: if the run
    returns, then for every processed listing whose title resolves to a
    manufacturer and for which [find_match] returns a product among that
    manufacturer's candidates, the output maps the listing's title to that
    product, whatever other listings come before or after it. *)
Theorem reconcile_records_every_match products listings out l m item :
  reconcile products listings = Ok out ->
  In l listings ->
  Matcher.manufacturer_match
    (dict_keys (manufacturer_index (init products))) l = Ok (Some m) ->
  Matcher.find_match (items_by_manufacturer (init products) m) l
  = Ok (Some item) ->
  dict_get out (Listing.title l) = Some item.
Proof.
  intros Hrun Hin Hm Hf.
  apply (reconcile_entry_iff _ _ (Listing.title l) item Hrun).
  exists l. split; [exact Hin | split; [reflexivity |]].
  apply decide_Some. now exists m.
Qed.

Lemma reconcile_records_every_match_witness :
  dict_get [("Canon A20 kit", product_named "Canon_A20" "Canon")]
           "Canon A20 kit"
  = Some (product_named "Canon_A20" "Canon").
Proof.
  apply (@reconcile_records_every_match
           [product_named "Canon_A20" "Canon"]
           [listing_titled "Nikon D90"; listing_titled "Canon A20 kit"]
           [("Canon A20 kit", product_named "Canon_A20" "Canon")]
           (listing_titled "Canon A20 kit") "Canon"
           (product_named "Canon_A20" "Canon"));
    try reflexivity.
  simpl. auto.
Defined.

Lemma reconcile_loop_total_on inventory : forall ls matches,
  (forall l, In l ls -> exists r, decide inventory l = Ok r) ->
  exists out, for_each (reconcile_step inventory) ls matches = Ok out.
Proof.
  induction ls as [| l ls IH]; intros matches Hdec; simpl; [eauto |].
  rewrite reconcile_step_decide.
  destruct (Hdec l (or_introl eq_refl)) as [r ->]. simpl.
  apply IH. intros l' H'. apply Hdec. now right.
Qed.

(** X18: the order of the listings does not change what the output maps:
    if the run returns on a listing collection, it returns on every
    rearrangement of it, and the two mappings give the same product, or
    none, under every title (they can differ only in the order of their
    keys). *)
Theorem reconcile_order_of_listings products listings1 listings2 out1 :
  reconcile products listings1 = Ok out1 ->
  Permutation listings1 listings2 ->
  exists out2,
    reconcile products listings2 = Ok out2
    /\ forall t, dict_get out2 t = dict_get out1 t.
Proof.
  intros Hrun P.
  destruct (@reconcile_loop_total_on (init products) listings2 [])
    as [out2 Hrun2].
  { intros l Hl. unfold reconcile in Hrun.
    eapply reconcile_loop_decides; [exact Hrun |].
    apply (Permutation_in _ (Permutation_sym P) Hl). }
  exists out2. split; [exact Hrun2 |]. intro t.
  assert (Hiff : forall item,
            dict_get out2 t = Some item <-> dict_get out1 t = Some item).
  { intro item.
    rewrite (reconcile_entry_iff _ _ t item Hrun).
    rewrite (reconcile_entry_iff _ _ t item Hrun2).
    split; intros (l & Hin & Et & Hd); exists l; repeat split; auto.
    - apply (Permutation_in _ (Permutation_sym P) Hin).
    - apply (Permutation_in _ P Hin). }
  destruct (dict_get out2 t) as [item |] eqn:E2.
  - symmetry. now apply Hiff.
  - destruct (dict_get out1 t) as [item |] eqn:E1; [| reflexivity].
    pose proof (proj2 (Hiff item) eq_refl) as X. discriminate X.
Qed.

Lemma reconcile_order_of_listings_witness :
  exists out2,
    reconcile [product_named "Canon_A20" "Canon"]
      [listing_titled "Nikon D90"; listing_titled "Canon A20 kit"] = Ok out2
    /\ forall t,
         dict_get out2 t
         = dict_get [("Canon A20 kit", product_named "Canon_A20" "Canon")] t.
Proof.
  apply (@reconcile_order_of_listings
           [product_named "Canon_A20" "Canon"]
           [listing_titled "Canon A20 kit"; listing_titled "Nikon D90"]
           [listing_titled "Nikon D90"; listing_titled "Canon A20 kit"]
           [("Canon A20 kit", product_named "Canon_A20" "Canon")]).
  - reflexivity.
  - apply perm_swap.
Defined.

(** X19: with an empty catalogue the run never fails and maps nothing,
    whatever the listings: no name is tried against any title. *)
Theorem reconcile_empty_catalogue listings : reconcile [] listings = Ok [].
Proof.
  unfold reconcile. induction listings as [| l listings IH]; [reflexivity |].
  exact IH.
Qed.

Lemma dict_set_keys_NoDup (V : Type) (d : dict V) k v :
  NoDup (dict_keys d) -> NoDup (dict_keys (dict_set d k v)).
Proof.
  intro ND. rewrite dict_keys_set.
  destruct (dict_get d k) eqn:E; [exact ND |].
  apply dict_get_None in E. apply NoDup_app; repeat split.
  - exact ND.
  - repeat constructor. simpl. tauto.
  - intros x Hx [<- | []]. contradiction.
Qed.

Lemma dict_set_length (V : Type) (d : dict V) k v :
  List.length (dict_set d k v) <= S (List.length d).
Proof.
  induction d as [| [k' v'] d IH]; simpl; [lia |].
  destruct (String.eqb k' k); simpl; lia.
Qed.

Lemma reconcile_loop_keys inventory : forall ls matches out,
  for_each (reconcile_step inventory) ls matches = Ok out ->
  NoDup (dict_keys matches) ->
  NoDup (dict_keys out) /\ List.length out <= List.length matches + List.length ls.
Proof.
  induction ls as [| l ls IH]; intros matches out Hrun ND; simpl in Hrun.
  - injection Hrun as <-. split; [exact ND | lia].
  - rewrite reconcile_step_decide in Hrun.
    destruct (decide inventory l) as [[item |] |]; simpl in Hrun;
      [| | discriminate].
    + destruct (IH _ _ Hrun (dict_set_keys_NoDup _ _ _ ND)) as [H1 H2].
      split; [exact H1 |].
      pose proof (dict_set_length matches (Listing.title l) item). simpl. lia.
    + destruct (IH _ _ Hrun ND) as [H1 H2]. split; [exact H1 | simpl; lia].
Qed.

(** X20: the output mapping has each key once, every key is the title of a
    processed listing, and there are at most as many entries as listings. *)
Theorem reconcile_output_keys products listings out :
  reconcile products listings = Ok out ->
  NoDup (dict_keys out)
  /\ incl (dict_keys out) (map Listing.title listings)
  /\ List.length out <= List.length listings.
Proof.
  intro Hrun. pose proof Hrun as Hrun'. unfold reconcile in Hrun'.
  destruct (reconcile_loop_keys _ _ _ Hrun' (NoDup_nil _)) as [ND Hlen].
  split; [exact ND | split; [| exact Hlen]].
  intros t Ht.
  destruct (dict_get out t) as [item |] eqn:E.
  - apply (reconcile_entry_iff _ _ t item Hrun) in E as (l & Hin & <- & _).
    now apply in_map.
  - apply dict_get_None in E. contradiction.
Qed.

Lemma reconcile_output_keys_witness :
  NoDup (dict_keys [("Canon A20 kit", product_named "Canon_A20" "Canon")])
  /\ incl (dict_keys [("Canon A20 kit", product_named "Canon_A20" "Canon")])
          (map Listing.title
             [listing_titled "Canon A20 kit"; listing_titled "Canon A20 kit"])
  /\ List.length [("Canon A20 kit", product_named "Canon_A20" "Canon")] <= 2.
Proof.
  apply (@reconcile_output_keys
           [product_named "Canon_A20" "Canon"]
           [listing_titled "Canon A20 kit"; listing_titled "Canon A20 kit"]
           [("Canon A20 kit", product_named "Canon_A20" "Canon")]).
  reflexivity.
Defined.

Lemma for_each_app (A S : Type) (body : S -> A -> result S) : forall xs ys st,
  for_each body (xs ++ ys) st
  = (st' <- for_each body xs st ;; for_each body ys st').
Proof.
  induction xs as [| x xs IH]; intros ys st; simpl; [reflexivity |].
  destruct (body st x); simpl; [apply IH | reflexivity].
Qed.

Lemma manufacturer_match_extra_name names k listing :
  re_match k (Listing.title listing) = Ok false ->
  Matcher.manufacturer_match (names ++ [k]) listing
  = Matcher.manufacturer_match names listing.
Proof.
  intro H. unfold Matcher.manufacturer_match. rewrite for_each_app.
  destruct (for_each _ names []) as [acc |]; simpl; [| reflexivity].
  now rewrite H.
Qed.

(** X21: a product whose manufacturer name, tried as a pattern, does not
    match a listing's title is of no consequence for that listing: adding it
    to any inventory leaves what the loop body does for the listing
    unchanged. *)
Theorem reconcile_step_ignores_other_manufacturer inventory p matches listing :
  re_match (Product.manufacturer p) (Listing.title listing) = Ok false ->
  reconcile_step (add_product inventory p) matches listing
  = reconcile_step inventory matches listing.
Proof.
  intro H. unfold reconcile_step.
  assert (Hm : Matcher.manufacturer_match
                 (dict_keys (manufacturer_index (add_product inventory p)))
                 listing
               = Matcher.manufacturer_match
                   (dict_keys (manufacturer_index inventory)) listing).
  { rewrite dict_keys_add. destruct (has_key _ _); [reflexivity |].
    now apply manufacturer_match_extra_name. }
  rewrite Hm. clear Hm.
  destruct (Matcher.manufacturer_match
              (dict_keys (manufacturer_index inventory)) listing)
    as [[m |] |] eqn:E; cbn [bind]; try reflexivity.
  rewrite items_by_manufacturer_add.
  destruct (String.eqb_spec (Product.manufacturer p) m) as [Em | _];
    [| reflexivity].
  exfalso. apply manufacturer_match_returns_filter in E.
  destruct (filter _ _) as [| b [| b' l]] eqn:Ef; try discriminate.
  injection E as E. subst b.
  destruct (filter_singleton_count _ _ Ef) as (_ & _ & Hf & _).
  unfold matches_titleb in Hf. rewrite <- Em, H in Hf. discriminate.
Qed.

Lemma reconcile_step_ignores_other_manufacturer_witness :
  reconcile_step
    (add_product (init [product_named "Canon_A20" "Canon"])
       (product_named "Nikon_D90" "Nikon"))
    [] (listing_titled "Canon A20 kit")
  = reconcile_step (init [product_named "Canon_A20" "Canon"])
      [] (listing_titled "Canon A20 kit").
Proof.
  apply (@reconcile_step_ignores_other_manufacturer
           (init [product_named "Canon_A20" "Canon"])
           (product_named "Nikon_D90" "Nikon") []
           (listing_titled "Canon A20 kit")).
  reflexivity.
Defined.

End ReconcileMore.

(** * The representations and the loaders *)

Section LoadersFacts.

Variable loads : string -> outcome json.

Lemma sapp_cancel_r a : forall b c,
  (a ++ String c "")%string = (b ++ String c "")%string -> a = b.
Proof.
  induction a as [| x a IH]; intros [| y b] c E; simpl in E.
  - reflexivity.
  - injection E as _ E. destruct b; discriminate.
  - injection E as _ E. destruct a; discriminate.
  - injection E as -> E. f_equal. exact (IH _ _ E).
Qed.

(** X22: a listing's representation tells its title: two listings have
    the same [__repr__] exactly when they have the same title. *)
Theorem Listing_repr_tells_title l1 l2 :
  Listing_repr l1 = Listing_repr l2 <-> Listing.title l1 = Listing.title l2.
Proof.
  unfold Listing_repr. split; [| now intros ->].
  cbn [append]. intro E. repeat injection E as E.
  exact (sapp_cancel_r _ _ _ E).
Qed.

Lemma sapp_comma_cancel a : forall b x y,
  no_comma a = true -> no_comma b = true ->
  (a ++ String "," x)%string = (b ++ String "," y)%string ->
  a = b /\ x = y.
Proof.
  induction a as [| c a IH]; intros [| d b] x y Ha Hb E; simpl in *.
  - injection E as ->. auto.
  - injection E as <- _. discriminate.
  - injection E as -> _. discriminate.
  - injection E as -> E.
    apply andb_true_iff in Ha as [_ Ha]. apply andb_true_iff in Hb as [_ Hb].
    destruct (IH _ _ _ Ha Hb E) as [-> ->]. auto.
Qed.

Lemma sapp_prefix_cancel p : forall a b,
  (p ++ a)%string = (p ++ b)%string -> a = b.
Proof.
  induction p as [| c p IH]; intros a b E; simpl in E; [exact E |].
  injection E as E. exact (IH _ _ E).
Qed.

(** X27: a product's representation tells its manufacturer, model and
    name when the manufacturer and the model have no comma: two such
    products with the same [__repr__] agree on the three fields (the
    announced date and the family are not shown). *)
Theorem Product_repr_tells_fields p1 p2 :
  no_comma (Product.manufacturer p1) = true ->
  no_comma (Product.manufacturer p2) = true ->
  no_comma (Product.model p1) = true ->
  no_comma (Product.model p2) = true ->
  Product_repr p1 = Product_repr p2 ->
  Product.manufacturer p1 = Product.manufacturer p2
  /\ Product.model p1 = Product.model p2
  /\ Product.product_name p1 = Product.product_name p2.
Proof.
  unfold Product_repr. intros M1 M2 O1 O2 E.
  apply (sapp_prefix_cancel "Product<manufacturer=") in E.
  apply sapp_comma_cancel in E as [Em E]; try assumption.
  apply (sapp_prefix_cancel "model=") in E.
  apply sapp_comma_cancel in E as [Eo E]; try assumption.
  apply (sapp_prefix_cancel "product_name=") in E.
  apply sapp_cancel_r in E. auto.
Qed.

Lemma Product_repr_tells_fields_witness :
  Product.product_name (product_named "Canon_A20" "Canon")
  = Product.product_name
      {| Product.product_name := "Canon_A20";
         Product.manufacturer := "Canon";
         Product.model := "";
         Product.announced_date := "2010";
         Product.family := Some "PowerShot" |}.
Proof.
  apply (@Product_repr_tells_fields
           (product_named "Canon_A20" "Canon")
           {| Product.product_name := "Canon_A20";
              Product.manufacturer := "Canon";
              Product.model := "";
              Product.announced_date := "2010";
              Product.family := Some "PowerShot" |});
    reflexivity.
Defined.

(** X23: [load_listings] returns only for a file without lines, and then
    the empty list.  For a file with at least one line it raises, and what
    it raises is decided by the first line alone: the exception of
    [json.loads] or of a missing field if there is one, and otherwise the
    [TypeError] of [list.append] called on the class. *)
Theorem load_listings_raises_unless_empty :
  load_listings loads [] = Returns []
  /\ forall line rest,
       load_listings loads (line :: rest)
       = Raises match (listing_json <~ loads (strip line) ;;
                       new_listing listing_json) with
                | Returns _ => TypeError
                | Raises e => e
                end.
Proof.
  split; [reflexivity |].
  intros line rest. unfold load_listings. simpl.
  destruct (loads (strip line)) as [listing_json |]; simpl; [| reflexivity].
  destruct (new_listing listing_json); reflexivity.
Qed.

Lemma load_products_from_spec : forall lines printed products printed' products',
  load_products_from loads lines printed products
  = (printed', Returns products') ->
  exists more_printed more_products,
    printed' = printed ++ more_printed
    /\ products' = products ++ more_products
    /\ more_printed = map not_json_message (filter (not_json loads) lines)
    /\ Forall2 (fun line p => load_product_line loads line = Returns p)
         (filter (fun line => negb (not_json loads line)) lines)
         more_products
    /\ List.length more_printed + List.length more_products
       = List.length lines.
Proof.
  induction lines as [| line lines IH]; intros printed products printed'
    products' E; simpl in E.
  - injection E as <- <-. exists [], []. rewrite !app_nil_r.
    repeat split; constructor.
  - assert (Hnj : not_json loads line
                  = match load_product_line loads line with
                    | Raises JSONDecodeError => true
                    | _ => false
                    end).
    { unfold not_json, load_product_line.
      destruct (loads (strip line)) as [pj | e]; simpl.
      - unfold new_product.
        destruct pj; simpl; try reflexivity.
        repeat match goal with
               | |- context [dict_get ?m ?k] => destruct (dict_get m k); simpl
               end; reflexivity.
      - reflexivity. }
    simpl. rewrite Hnj.
    destruct (load_product_line loads line) as [p | e] eqn:El.
    + destruct (IH _ _ _ _ E) as (mp & mq & -> & -> & -> & HF & Hlen).
      exists (map not_json_message (filter (not_json loads) lines)), (p :: mq).
      simpl. rewrite <- app_assoc. repeat split.
      * constructor; assumption.
      * simpl in *. lia.
    + destruct e; try discriminate.
      destruct (IH _ _ _ _ E) as (mp & mq & -> & -> & -> & HF & Hlen).
      exists (not_json_message line
              :: map not_json_message (filter (not_json loads) lines)), mq.
      simpl. rewrite <- app_assoc. repeat split.
      * exact HF.
      * simpl in *. lia.
Qed.

(** X24: when [load_products] returns, every line is accounted for: a
    message was printed for each line that is not JSON, in order, each other
    line gave one product, in order, and the numbers of messages and of
    products add up to the number of lines. *)
Theorem load_products_accounts_for_every_line lines printed products :
  load_products loads lines = (printed, Returns products) ->
  printed = map not_json_message (filter (not_json loads) lines)
  /\ Forall2 (fun line p => load_product_line loads line = Returns p)
       (filter (fun line => negb (not_json loads line)) lines) products
  /\ List.length printed + List.length products = List.length lines.
Proof.
  intro E. unfold load_products in E.
  destruct (load_products_from_spec _ _ _ E)
    as (mp & mq & -> & -> & -> & HF & Hlen).
  simpl. auto.
Qed.

Lemma load_products_from_app : forall before printed products printed' products' rest,
  load_products_from loads before printed products
  = (printed', Returns products') ->
  load_products_from loads (before ++ rest) printed products
  = load_products_from loads rest printed' products'.
Proof.
  induction before as [| line before IH]; intros printed products printed'
    products' rest E; simpl in *.
  - now injection E as <- <-.
  - destruct (load_product_line loads line) as [p | e].
    + now apply IH.
    + destruct e; try discriminate. now apply IH.
Qed.

(** X25: only a line that is not JSON is skipped.  If the lines before it
    load, a line whose decoding or whose fields raise anything else (a
    missing key, a value that is not a dictionary) ends [load_products] with
    that exception: the products read so far are not returned, and no later
    line is read. *)
Theorem load_products_stops_at_uncaught before line after printed products e :
  load_products loads before = (printed, Returns products) ->
  load_product_line loads line = Raises e ->
  e <> JSONDecodeError ->
  load_products loads (before ++ line :: after) = (printed, Raises e).
Proof.
  intros Eb El Ne. unfold load_products in *.
  rewrite (load_products_from_app _ _ _ (line :: after) Eb). simpl.
  rewrite El. destruct e; try reflexivity. contradiction.
Qed.

Lemma load_products_skip : forall lines printed1 printed2 products,
  snd (load_products_from loads lines printed1 products)
  = snd (load_products_from loads
           (filter (fun line => negb (not_json loads line)) lines)
           printed2 products)
  /\ fst (load_products_from loads
            (filter (fun line => negb (not_json loads line)) lines)
            printed2 products) = printed2.
Proof.
  induction lines as [| line lines IH]; intros printed1 printed2 products;
    simpl; [split; reflexivity |].
  assert (Hnj : not_json loads line
                = match load_product_line loads line with
                  | Raises JSONDecodeError => true
                  | _ => false
                  end).
  { unfold not_json, load_product_line.
    destruct (loads (strip line)) as [pj | e]; simpl.
    - unfold new_product.
      destruct pj; simpl; try reflexivity.
      repeat match goal with
             | |- context [dict_get ?m ?k] => destruct (dict_get m k); simpl
             end; reflexivity.
    - reflexivity. }
  rewrite Hnj.
  destruct (load_product_line loads line) as [p | e] eqn:El; simpl.
  - rewrite El. apply IH.
  - destruct e; simpl; try rewrite El; try (split; reflexivity). apply IH.
Qed.

(** X26: the lines that are not JSON cost nothing but their message:
    [load_products] gives the same products, or raises the same exception,
    as on the file with those lines removed, for which it prints nothing. *)
Theorem load_products_same_without_bad_lines lines :
  snd (load_products loads lines)
  = snd (load_products loads
           (filter (fun line => negb (not_json loads line)) lines))
  /\ fst (load_products loads
            (filter (fun line => negb (not_json loads line)) lines)) = [].
Proof. unfold load_products. apply load_products_skip. Qed.

End LoadersFacts.

Section LoadersExamples.

Lemma load_products_accounts_for_every_line_witness :
  exists p,
    load_products sample_loads [sample_product_text; "not json"]
    = ([not_json_message "not json"], Returns [p])
    /\ List.length [not_json_message "not json"] + List.length [p] = 2.
Proof.
  eexists. split; [reflexivity |].
  apply (load_products_accounts_for_every_line sample_loads
           [sample_product_text; "not json"] eq_refl).
Defined.

Lemma load_products_stops_at_uncaught_witness :
  load_products sample_loads ([sample_product_text] ++ "{}" :: ["not json"])
  = ([], Raises (KeyError "manufacturer")).
Proof.
  eapply (@load_products_stops_at_uncaught sample_loads
            [sample_product_text] "{}" ["not json"]).
  - reflexivity.
  - reflexivity.
  - discriminate.
Defined.

End LoadersExamples.

(** * The resolver and the loop over any pattern engine *)

Section AnyEngineFacts.

Import Inventory.

Variable engine : string -> string -> result bool.
Variable to_upper : string -> string.

Lemma matches_withb_true name t :
  matches_withb engine name t = true <-> matches_with engine name t.
Proof.
  unfold matches_withb, matches_with.
  destruct (engine name t) as [[] | f]; split; congruence.
Qed.

Lemma manufacturer_match_with_loop t : forall names matched_brands,
  Forall (fun n => exists b, engine n t = Ok b) names ->
  for_each
    (fun matched_brands brand =>
       matched <- engine brand t ;;
       Ok (if matched : bool then matched_brands ++ [brand]
           else matched_brands))
    names matched_brands
  = Ok (matched_brands ++ filter (fun n => matches_withb engine n t) names).
Proof.
  induction names as [| n names IH]; intros acc H; simpl.
  - now rewrite app_nil_r.
  - inversion H as [| ? ? [b Eb] H']; subst.
    unfold matches_withb at 1. rewrite Eb. simpl.
    rewrite IH by assumption.
    destruct b; [rewrite <- app_assoc |]; reflexivity.
Qed.

Lemma manufacturer_match_with_filter names listing :
  Forall (fun n => exists b, engine n (Listing.title listing) = Ok b) names ->
  manufacturer_match_with engine names listing
  = Ok match filter (fun n => matches_withb engine n (Listing.title listing))
                names with
       | [brand] => Some brand
       | _ => None
       end.
Proof.
  intro H. unfold manufacturer_match_with.
  rewrite manufacturer_match_with_loop by exact H. simpl.
  destruct (filter _ names) as [| b [| b' l]]; reflexivity.
Qed.

Lemma manufacturer_match_with_resolves_iff names listing m :
  NoDup names ->
  Forall (fun n => exists b, engine n (Listing.title listing) = Ok b) names ->
  manufacturer_match_with engine names listing = Ok (Some m)
  <-> resolves_to_with engine names (Listing.title listing) m.
Proof.
  intros ND HC. rewrite manufacturer_match_with_filter by exact HC.
  unfold resolves_to_with.
  rewrite <- (matches_withb_true m).
  assert (Hiff : (forall n, In n names ->
                    matches_with engine n (Listing.title listing) -> n = m)
                 <-> (forall n, In n names ->
                    matches_withb engine n (Listing.title listing) = true ->
                    n = m)).
  { split; intros H n Hn Hm; apply H; try assumption;
      now apply matches_withb_true. }
  rewrite Hiff.
  rewrite <- (filter_singleton
                (fun n => matches_withb engine n (Listing.title listing))
                m ND).
  destruct (filter _ names) as [| b [| b' l]]; split; congruence.
Qed.

(** A name on which the engine fails ends the loop with a failure of one
    of the names. *)
Lemma manufacturer_match_with_loop_fails t : forall names matched_brands n f,
  In n names -> engine n t = Fail f ->
  exists n' f',
    In n' names /\ engine n' t = Fail f'
    /\ for_each
         (fun matched_brands brand =>
            matched <- engine brand t ;;
            Ok (if matched : bool then matched_brands ++ [brand]
                else matched_brands))
         names matched_brands
       = Fail f'.
Proof.
  induction names as [| x names IH]; intros acc n f Hin Hf; [destruct Hin |].
  simpl. destruct (engine x t) as [b | fx] eqn:Ex; simpl.
  - destruct Hin as [-> | Hin]; [congruence |].
    destruct (IH (if b then acc ++ [x] else acc) n f Hin Hf)
      as (n' & f' & Hn' & Ef' & Hrun).
    exists n', f'. auto.
  - exists x, fx. auto.
Qed.

Lemma product_name_match_with_total p listing :
  valid_pattern engine
    (Matcher.product_regex (map to_upper (split_sep (Product.product_name p)))) ->
  exists matched,
    product_name_match_with engine to_upper p listing = Ok (matched, 80%Z).
Proof.
  intro H. destruct (H (Listing.title listing)) as [b Eb].
  unfold product_name_match_with. rewrite Eb. simpl. eauto.
Qed.

Lemma find_match_with_loop_sound listing : forall candidates fits out,
  for_each
    (fun potential_fits product =>
       scored <- product_name_match_with engine to_upper product listing ;;
       let '(matched, confidence_bonus) := scored in
       Ok (if matched : bool then potential_fits ++ [product]
           else potential_fits))
    candidates fits = Ok out ->
  forall p, In p out ->
    In p fits
    \/ (In p candidates
        /\ exists c,
             product_name_match_with engine to_upper p listing = Ok (true, c)).
Proof.
  induction candidates as [| q candidates IH]; intros fits out E p Hp;
    simpl in E.
  - injection E as <-. now left.
  - destruct (product_name_match_with engine to_upper q listing)
      as [[matched c] |] eqn:Eq; simpl in E; [| discriminate].
    destruct (IH _ _ E p Hp) as [Hfits | [Hin Hm]].
    + destruct matched; [| now left].
      apply in_app_or in Hfits as [Hfits | [<- | []]]; [now left |].
      right. split; [now left | eauto].
    + right. split; [now right | exact Hm].
Qed.

Lemma find_match_with_loop_total listing : forall candidates fits,
  Forall (fun p => exists matched,
            product_name_match_with engine to_upper p listing
            = Ok (matched, 80%Z)) candidates ->
  exists out,
    for_each
      (fun potential_fits product =>
         scored <- product_name_match_with engine to_upper product listing ;;
         let '(matched, confidence_bonus) := scored in
         Ok (if matched : bool then potential_fits ++ [product]
             else potential_fits))
      candidates fits = Ok out.
Proof.
  induction candidates as [| q candidates IH]; intros fits H; simpl;
    [eauto |].
  inversion H as [| ? ? [matched Eq] H']; subst. rewrite Eq. simpl.
  apply IH. exact H'.
Qed.

Lemma find_match_with_sound candidates listing p :
  find_match_with engine to_upper candidates listing = Ok (Some p) ->
  In p candidates
  /\ exists c,
       product_name_match_with engine to_upper p listing = Ok (true, c).
Proof.
  unfold find_match_with.
  destruct (for_each _ (sorted Product.product_name candidates) [])
    as [out |] eqn:E; simpl; [| discriminate].
  intro H.
  assert (Hlast : last_item out = Some p).
  { destruct out; [discriminate | now injection H]. }
  apply last_item_In in Hlast.
  destruct (find_match_with_loop_sound _ _ _ E p Hlast) as [[] | [Hin Hm]].
  split; [| exact Hm].
  apply (Permutation_in _ (sorted_perm Product.product_name candidates) Hin).
Qed.

Lemma find_match_with_total candidates listing :
  Forall (fun p => exists matched,
            product_name_match_with engine to_upper p listing
            = Ok (matched, 80%Z)) candidates ->
  exists r, find_match_with engine to_upper candidates listing = Ok r.
Proof.
  intro H. unfold find_match_with.
  assert (HS : Forall (fun p => exists matched,
                 product_name_match_with engine to_upper p listing
                 = Ok (matched, 80%Z))
                 (sorted Product.product_name candidates)).
  { eapply Permutation_Forall; [| exact H].
    apply Permutation_sym, sorted_perm. }
  destruct (@find_match_with_loop_total listing _ [] HS) as [out ->].
  simpl. destruct out; eauto.
Qed.

Lemma reconcile_step_with_decide inventory matches listing :
  reconcile_step_with engine to_upper inventory matches listing
  = (matched_item <- decide_with engine to_upper inventory listing ;;
     Ok match matched_item with
        | Some item => dict_set matches (Listing.title listing) item
        | None => matches
        end).
Proof.
  unfold reconcile_step_with, decide_with.
  destruct (manufacturer_match_with engine _ listing) as [[m |] | f]; simpl;
    try reflexivity.
  destruct (items_by_manufacturer inventory m); simpl; [reflexivity |].
  destruct (find_match_with engine to_upper _ listing) as [[item |] | f];
    reflexivity.
Qed.

Lemma decide_with_title_only inventory l1 l2 :
  Listing.title l1 = Listing.title l2 ->
  decide_with engine to_upper inventory l1
  = decide_with engine to_upper inventory l2.
Proof.
  intro E. unfold decide_with, manufacturer_match_with, find_match_with,
    product_name_match_with. now rewrite E.
Qed.

Lemma reconcile_with_loop_entry inventory t item : forall ls matches out,
  for_each (reconcile_step_with engine to_upper inventory) ls matches = Ok out ->
  dict_get out t = Some item ->
  dict_get matches t = Some item
  \/ exists l, In l ls /\ Listing.title l = t
               /\ decide_with engine to_upper inventory l = Ok (Some item).
Proof.
  induction ls as [| l ls IH]; intros matches out Hrun Hget; simpl in Hrun.
  - injection Hrun as <-. now left.
  - rewrite reconcile_step_with_decide in Hrun.
    destruct (decide_with engine to_upper inventory l) as [r |] eqn:El;
      simpl in Hrun; [| discriminate].
    destruct (IH _ _ Hrun Hget) as [H | (l' & Hin & Et & Hd)].
    + destruct r as [item' |]; [| now left].
      destruct (String.string_dec t (Listing.title l)) as [-> | N].
      * rewrite dict_get_set_same in H. injection H as ->.
        right. exists l. simpl. auto.
      * rewrite dict_get_set_other in H by exact N. now left.
    + right. exists l'. simpl. auto.
Qed.

Lemma reconcile_with_loop_total inventory : forall ls matches,
  (forall l, exists r, decide_with engine to_upper inventory l = Ok r) ->
  exists out,
    for_each (reconcile_step_with engine to_upper inventory) ls matches
    = Ok out.
Proof.
  induction ls as [| l ls IH]; intros matches Hdec; simpl; [eauto |].
  rewrite reconcile_step_with_decide. destruct (Hdec l) as [r ->]. simpl.
  apply IH, Hdec.
Qed.

Lemma index_key_has_product products key :
  In key (dict_keys (manufacturer_index (init products))) ->
  items_by_manufacturer (init products) key <> []
  /\ exists p, In p products /\ Product.manufacturer p = key.
Proof.
  intro Hkey. pose proof (index_ok_init products) as OK.
  unfold items_by_manufacturer.
  destruct (dict_get (manufacturer_index (init products)) key)
    as [bucket |] eqn:E.
  - destruct (bucket_is_filter OK _ E) as [Hne Hb]. split; [exact Hne |].
    destruct bucket as [| p bucket]; [congruence |].
    assert (Hp : In p (filter (fun q => String.eqb (Product.manufacturer q) key)
                         (product_list (init products))))
      by (rewrite <- Hb; now left).
    apply filter_In in Hp as [Hp Ek]. apply String.eqb_eq in Ek.
    rewrite product_list_init in Hp. eauto.
  - apply dict_get_None in E. contradiction.
Qed.

Lemma index_keys_valid products :
  patterns_valid engine to_upper products ->
  Forall (valid_pattern engine)
         (dict_keys (manufacturer_index (init products))).
Proof.
  intro H. apply Forall_forall. intros key Hkey.
  destruct (index_key_has_product products key Hkey) as [_ (p & Hp & <-)].
  unfold patterns_valid in H. rewrite Forall_forall in H.
  apply (H p Hp).
Qed.

Lemma valid_at_title names t :
  Forall (valid_pattern engine) names ->
  Forall (fun n => exists b, engine n t = Ok b) names.
Proof.
  intro H. eapply Forall_impl; [| exact H]. intros n Hn. apply Hn.
Qed.

Lemma items_scores products m listing :
  patterns_valid engine to_upper products ->
  Forall (fun p => exists matched,
            product_name_match_with engine to_upper p listing
            = Ok (matched, 80%Z))
         (items_by_manufacturer (init products) m).
Proof.
  intro H. apply Forall_forall. intros p Hp.
  apply items_in_products in Hp as [Hp _].
  unfold patterns_valid in H. rewrite Forall_forall in H.
  apply product_name_match_with_total, (H p Hp).
Qed.

Lemma decide_with_total products listing :
  patterns_valid engine to_upper products ->
  exists r, decide_with engine to_upper (init products) listing = Ok r.
Proof.
  intro H. unfold decide_with.
  rewrite (manufacturer_match_with_filter listing
             (valid_at_title _ (index_keys_valid H))).
  simpl. destruct (filter _ _) as [| m [| m' l]]; eauto.
  pose proof (items_scores m listing H) as Hitems.
  destruct (items_by_manufacturer (init products) m); [eauto |].
  apply find_match_with_total, Hitems.
Qed.

Lemma decide_with_no_match products listing :
  patterns_valid engine to_upper products ->
  no_match_with engine to_upper (init products) listing ->
  decide_with engine to_upper (init products) listing = Ok None.
Proof.
  intros H Hno.
  pose proof (valid_at_title (Listing.title listing) (index_keys_valid H))
    as HC.
  pose proof (keys_distinct (index_ok_init products)) as ND.
  destruct (decide_with_total listing H) as [[p |] E]; [| exact E].
  exfalso. unfold decide_with in E.
  destruct (manufacturer_match_with engine _ listing) as [[m |] |] eqn:Em;
    simpl in E; try discriminate.
  apply manufacturer_match_with_resolves_iff in Em; [| exact ND | exact HC].
  assert (Hunique : forall m', resolves_to_with engine
            (dict_keys (manufacturer_index (init products)))
            (Listing.title listing) m' -> m' = m).
  { intros m' (Hin & Hm & _). destruct Em as (_ & _ & Hu). now apply Hu. }
  destruct (items_by_manufacturer (init products) m) as [| q items] eqn:Ei;
    [discriminate |].
  apply find_match_with_sound in E as [Hin [c Hc]].
  destruct Hno as [Hno | [(m' & Hr & Hempty) | (m' & Hr & Hnone)]].
  - apply Hno. now exists m.
  - apply Hunique in Hr. subst m'. congruence.
  - apply Hunique in Hr. subst m'. apply (Hnone p c); [| exact Hc].
    now rewrite Ei.
Qed.

End AnyEngineFacts.

(** * The modelled engine is one engine *)

Section ModelledEngine.

Import Inventory.

Lemma compiles_valid pattern : compiles pattern -> valid_pattern re_match pattern.
Proof.
  intros [r E] text. unfold re_match. rewrite E. simpl. eauto.
Qed.

Lemma manufacturer_match_instance names listing :
  Matcher.manufacturer_match names listing
  = manufacturer_match_with re_match names listing.
Proof. reflexivity. Qed.

Lemma product_name_match_instance p listing :
  Matcher.product_name_match p listing
  = product_name_match_with re_match upper p listing.
Proof.
  unfold Matcher.product_name_match, product_name_match_with, re_match.
  destruct (compile _); reflexivity.
Qed.

Lemma find_match_instance products listing :
  Matcher.find_match products listing
  = find_match_with re_match upper products listing.
Proof.
  unfold Matcher.find_match, find_match_with. f_equal.
  apply for_each_ext. intros fits p. now rewrite product_name_match_instance.
Qed.

Lemma reconcile_step_instance inventory matches listing :
  reconcile_step inventory matches listing
  = reconcile_step_with re_match upper inventory matches listing.
Proof.
  unfold reconcile_step, reconcile_step_with.
  rewrite manufacturer_match_instance.
  destruct (manufacturer_match_with re_match _ listing) as [[m |] |];
    cbn [bind]; try reflexivity.
  now rewrite find_match_instance.
Qed.

Lemma reconcile_instance products listings :
  reconcile products listings
  = reconcile_with re_match upper products listings.
Proof.
  unfold reconcile, reconcile_with. apply for_each_ext.
  intros matches l. apply reconcile_step_instance.
Qed.

End ModelledEngine.

(** * The resolver and the unmatched listings, for every engine *)

Section AnyEngineTheorems.

Import Inventory.

(** C2, as amended: whatever [re.match] is, for every duplicate-free list
    of manufacturer names that are all valid patterns and every listing
    title, the resolver returns the name [m] when [m] is the one and only
    name matching the title, and returns none when no name matches and when
    two or more names match.  A name on which the engine fails makes the
    call fail with the failure of one of the names instead of returning.
    The resolver of [Matcher] is the one obtained with the modelled
    engine. *)
Theorem manufacturer_match_with_exactly_one
  (engine : string -> string -> result bool) names listing :
  (NoDup names -> Forall (valid_pattern engine) names ->
   (forall m, resolves_to_with engine names (Listing.title listing) m ->
              manufacturer_match_with engine names listing = Ok (Some m))
   /\ ((forall n, In n names ->
                  ~ matches_with engine n (Listing.title listing)) ->
       manufacturer_match_with engine names listing = Ok None)
   /\ (forall n1 n2,
         In n1 names -> In n2 names -> n1 <> n2 ->
         matches_with engine n1 (Listing.title listing) ->
         matches_with engine n2 (Listing.title listing) ->
         manufacturer_match_with engine names listing = Ok None))
  /\ (forall n f,
        In n names -> engine n (Listing.title listing) = Fail f ->
        exists n' f',
          In n' names /\ engine n' (Listing.title listing) = Fail f'
          /\ manufacturer_match_with engine names listing = Fail f')
  /\ Matcher.manufacturer_match names listing
     = manufacturer_match_with re_match names listing.
Proof.
  split; [| split; [| reflexivity]].
  - intros ND HV.
    pose proof (valid_at_title (Listing.title listing) HV) as HC.
    assert (Hnone :
              (~ exists m, resolves_to_with engine names
                             (Listing.title listing) m) ->
              manufacturer_match_with engine names listing = Ok None).
    { intro H.
      pose proof (@manufacturer_match_with_filter engine names listing HC)
        as E.
      destruct (filter _ names) as [| m [| m' l]] eqn:Ef; try exact E.
      exfalso. apply H. exists m.
      now apply (@manufacturer_match_with_resolves_iff engine names listing
                   m ND HC). }
    split; [| split].
    + intros m H.
      now apply (@manufacturer_match_with_resolves_iff engine names listing
                   m ND HC).
    + intro H. apply Hnone. intros (m & Hin & Hm & _). exact (H m Hin Hm).
    + intros n1 n2 H1 H2 N M1 M2. apply Hnone. intros (m & _ & _ & Hu).
      apply N. rewrite (Hu n1 H1 M1), (Hu n2 H2 M2). reflexivity.
  - intros n f Hin Hf. unfold manufacturer_match_with.
    destruct (@manufacturer_match_with_loop_fails engine
                (Listing.title listing) names [] n f Hin Hf)
      as (n' & f' & Hn' & Ef' & ->).
    exists n', f'. auto.
Qed.

Lemma manufacturer_match_with_exactly_one_witness :
  manufacturer_match_with re_match ["Sony"; "Canon"]
    (listing_titled "canon EOS 5D") = Ok (Some "Canon")
  /\ manufacturer_match_with re_match ["Sony"; "Canon"]
       (listing_titled "Nikon D90") = Ok None
  /\ manufacturer_match_with re_match ["Sony"; "SonyEricsson"]
       (listing_titled "SonyEricsson W800") = Ok None
  /\ exists n' f',
       In n' ["Canon"; "("]
       /\ re_match n' "Canon X" = Fail f'
       /\ manufacturer_match_with re_match ["Canon"; "("]
            (listing_titled "Canon X") = Fail f'.
Proof.
  assert (V : forall a b, compiles a -> compiles b ->
                          Forall (valid_pattern re_match) [a; b]).
  { intros a b Ha Hb. repeat constructor; now apply compiles_valid. }
  assert (ND1 : NoDup ["Sony"; "Canon"])
    by (apply NoDup_two_names; discriminate).
  assert (ND2 : NoDup ["Sony"; "SonyEricsson"])
    by (apply NoDup_two_names; discriminate).
  assert (V1 : Forall (valid_pattern re_match) ["Sony"; "Canon"])
    by (apply V; eexists; reflexivity).
  assert (V2 : Forall (valid_pattern re_match) ["Sony"; "SonyEricsson"])
    by (apply V; eexists; reflexivity).
  split; [| split; [| split]].
  - apply (proj1 (proj1 (manufacturer_match_with_exactly_one re_match
                           ["Sony"; "Canon"] (listing_titled "canon EOS 5D"))
                    ND1 V1)).
    repeat split; simpl; auto.
    intros n [<- | [<- | []]]; [discriminate | reflexivity].
  - apply (proj1 (proj2 (proj1 (manufacturer_match_with_exactly_one re_match
                                  ["Sony"; "Canon"] (listing_titled "Nikon D90"))
                           ND1 V1))).
    intros n [<- | [<- | []]]; discriminate.
  - apply (proj2 (proj2 (proj1 (manufacturer_match_with_exactly_one re_match
                                  ["Sony"; "SonyEricsson"]
                                  (listing_titled "SonyEricsson W800"))
                           ND2 V2))
             "Sony" "SonyEricsson").
    + left. reflexivity.
    + right. left. reflexivity.
    + discriminate.
    + reflexivity.
    + reflexivity.
  - apply (proj1 (proj2 (manufacturer_match_with_exactly_one re_match
                           ["Canon"; "("] (listing_titled "Canon X")))
             "(" re_error).
    + right. left. reflexivity.
    + reflexivity.
Defined.

(** C5, as amended: whatever [re.match] and [str.upper] are, when every
    manufacturer name of the catalogue and every pattern built from a
    product name of the catalogue is a valid pattern, the run raises no
    exception: it returns a mapping; and for every listing processed whose
    title does not resolve to exactly one manufacturer of the index, or
    resolves to one with no candidate, or resolves and no candidate's score
    says matched, the mapping has no entry under the listing's title.  (The
    second case never arises: a manufacturer the title resolves to is a key
    of the index and has at least one candidate.)  The run of [reconcile] is
    the one obtained with the modelled engine and upper-casing. *)
Theorem unmatched_listings_have_no_entry
  (engine : string -> string -> result bool) (to_upper : string -> string)
  products listings :
  (patterns_valid engine to_upper products ->
   exists out,
     reconcile_with engine to_upper products listings = Ok out
     /\ forall listing,
          In listing listings ->
          no_match_with engine to_upper (init products) listing ->
          dict_get out (Listing.title listing) = None)
  /\ (forall t m,
        resolves_to_with engine
          (dict_keys (manufacturer_index (init products))) t m ->
        items_by_manufacturer (init products) m <> [])
  /\ reconcile products listings
     = reconcile_with re_match upper products listings.
Proof.
  split; [| split; [| apply reconcile_instance]].
  - intro H. unfold reconcile_with.
    destruct (@reconcile_with_loop_total engine to_upper (init products)
                listings []
                (fun l => @decide_with_total engine to_upper products l H))
      as [out Hrun].
    exists out. split; [exact Hrun |].
    intros listing Hin Hno.
    destruct (dict_get out (Listing.title listing)) as [item |] eqn:E;
      [| reflexivity].
    exfalso.
    destruct (@reconcile_with_loop_entry engine to_upper _ _ _ _ _ _ Hrun E)
      as [Hempty | (l & _ & Et & Hd)]; [discriminate |].
    rewrite (@decide_with_title_only engine to_upper (init products)
               l listing Et) in Hd.
    rewrite (@decide_with_no_match engine to_upper products listing H Hno)
      in Hd.
    discriminate.
  - intros t m (Hin & _ & _).
    apply (index_key_has_product products m Hin).
Qed.

Lemma unmatched_listings_have_no_entry_witness :
  exists out,
    reconcile_with re_match upper
      [product_named "Canon_PowerShot_A20" "Canon"]
      [listing_titled "Nikon D90"; listing_titled "Canon EOS 5D"] = Ok out
    /\ dict_get out "Nikon D90" = None
    /\ dict_get out "Canon EOS 5D" = None.
Proof.
  assert (HV : patterns_valid re_match upper
                 [product_named "Canon_PowerShot_A20" "Canon"]).
  { repeat constructor; apply compiles_valid; eexists; reflexivity. }
  destruct (proj1 (unmatched_listings_have_no_entry re_match upper
                     [product_named "Canon_PowerShot_A20" "Canon"]
                     [listing_titled "Nikon D90";
                      listing_titled "Canon EOS 5D"]) HV)
    as (out & Hrun & Hnone).
  exists out. split; [exact Hrun | split].
  - apply (Hnone (listing_titled "Nikon D90")); [now left |].
    left. intros (m & [<- | []] & Hm & _). discriminate.
  - apply (Hnone (listing_titled "Canon EOS 5D")); [right; now left |].
    right. right. exists "Canon". split.
    + repeat split; simpl; auto. intros n [<- | []] _. reflexivity.
    + intros p c [<- | []]. discriminate.
Defined.

End AnyEngineTheorems.
